(** * The callback pipeline of gorm (callbacks.go), embedded in Rocq

    The development follows [callbacks.go]: the declaration record
    [callback], the registry [processor], the resolver [sortCallbacks] with
    its recursive closure [sortCallback], [compile], the builder operations
    [Register], [Remove], [Replace], the lookup [Get], and the execution
    engine [Execute].

    Go values that the file shares by pointer are modelled by explicit
    state passing:
    - the slice [cs] of callback pointers given to [sortCallbacks] is a list of
      records addressed by index; the writes [cs[idx].after = ...] and
      [after.before = ...] update that list, and the updated list is what
      the processor keeps after a compile, as the pointers in
      [p.callbacks] do;
    - every registration appends a declaration of its own, as the methods
      [Register], [Remove] and [Replace] of the processor do with their
      fresh builder; the back pointer [processor] of a declaration is the
      processor argument of the builder methods;
    - the closure variable [sorted] is a component of the resolver state;
    - [logger.Default] is a list of log entries threaded through the calls.

    The recursion of [sortCallback] is not structural, so the closure takes
    a bound on the recursion depth and returns [OutOfFuel] when it is
    exceeded. *)

From Stdlib Require Import ZArith String List Lia Bool.
From stdpp Require Import base list.
Import ListNotations.

Local Open Scope string_scope.
Local Open Scope list_scope.
Local Open Scope Z_scope.

Module Gorm.

(** ** Go values at the boundary *)

(** [error] values. [ErrorfMsg] is the result of [fmt.Errorf] without a
    wrapping verb, [ErrorfWrap] with one; [ErrSentinel] is a package level
    error variable such as [schema.ErrUnsupportedDataType]. *)
Inductive error : Type :=
| ErrSentinel (id : string)
| ErrorfMsg (msg : string)
| ErrorfWrap (msg : string) (inner : error).

Definition ErrUnsupportedDataType : error :=
  ErrSentinel "unsupported data type".

(** [errors.Is]: the chain of wrapped errors is searched for the target
    sentinel. *)
Fixpoint errors_Is (err target : error) : bool :=
  match err with
  | ErrSentinel id =>
      match target with
      | ErrSentinel id' => String.eqb id id'
      | _ => false
      end
  | ErrorfMsg _ => false
  | ErrorfWrap _ inner => errors_Is inner target
  end.

(** The values behind [interface{}]: enough structure for
    [reflect.Indirect], which follows one pointer. *)
Inductive value : Type :=
| VStruct (ty : string)
| VPtr (to : value).

Definition reflect_Indirect (v : option value) : option value :=
  match v with
  | Some (VPtr w) => Some w
  | other => other
  end.

(** [Statement] and [DB], with the fields [Execute] reads and writes. *)
Record Statement : Type := mkStatement {
  Model : option value;
  Dest : option value;
  Table : string;
  ReflectValue : option value;
  SQL : string;
  Vars : list value;
  stmt_Error : option error;
  stmt_RowsAffected : Z
}.

(** One call of [db.Logger.Trace (begin, fc, err)]; [fc] is recorded by the
    pair it returns. *)
Record TraceRecord : Type := mkTrace {
  trace_begin : Z;
  trace_sql : string;
  trace_rows : Z;
  trace_err : option error
}.

Record DB : Type := mkDB {
  Statement_ : option Statement;
  Error : option error;
  RowsAffected : Z;
  Logger : list TraceRecord
}.

(** Handlers and match predicates: Go functions from a DB pointer, to
    nothing and to bool; a Go function value may be nil. *)
Definition Handler : Type := DB -> DB.
Definition Matcher : Type := DB -> bool.

(** ** Declarations and processors *)

Record callback : Type := mkCallback {
  name : string;
  before : string;
  after : string;
  remove : bool;
  replace : bool;
  match_ : option Matcher;
  handler : option Handler
}.

Record processor : Type := mkProcessor {
  db : DB;
  fns : list (option Handler);
  callbacks : list callback
}.

(** [&callback{processor: p}]: every field at its zero value. *)
Definition new_callback : callback :=
  mkCallback "" "" "" false false None None.

(** [&processor{db: db}] *)
Definition new_processor (d : DB) : processor := mkProcessor d [] [].

Definition set_name (n : string) (c : callback) : callback :=
  mkCallback n (before c) (after c) (remove c) (replace c) (match_ c) (handler c).
Definition set_before (n : string) (c : callback) : callback :=
  mkCallback (name c) n (after c) (remove c) (replace c) (match_ c) (handler c).
Definition set_after (n : string) (c : callback) : callback :=
  mkCallback (name c) (before c) n (remove c) (replace c) (match_ c) (handler c).
Definition set_remove (b : bool) (c : callback) : callback :=
  mkCallback (name c) (before c) (after c) b (replace c) (match_ c) (handler c).
Definition set_replace (b : bool) (c : callback) : callback :=
  mkCallback (name c) (before c) (after c) (remove c) b (match_ c) (handler c).
Definition set_match (m : option Matcher) (c : callback) : callback :=
  mkCallback (name c) (before c) (after c) (remove c) (replace c) m (handler c).
Definition set_handler (h : option Handler) (c : callback) : callback :=
  mkCallback (name c) (before c) (after c) (remove c) (replace c) (match_ c) h.

(** The entries written to [logger.Default]. *)
Inductive logentry : Type :=
| WarnRemoving (n : string)
| InfoReplacing (n : string)
| WarnDuplicated (n : string)
| ErrorCompile (e : error).

(** Outcome of a computation that may index out of range (a Go panic) or
    exceed the recursion bound. *)
Inductive res (A : Type) : Type :=
| Ret (a : A)
| Panic
| OutOfFuel.
Arguments Ret {A} a.
Arguments Panic {A}.
Arguments OutOfFuel {A}.

Definition bind {A B : Type} (m : res A) (k : A -> res B) : res B :=
  match m with
  | Ret a => k a
  | Panic => Panic
  | OutOfFuel => OutOfFuel
  end.

Notation "'do' x <~ m ; k" := (bind m (fun x => k))
  (at level 10, x name, m at level 100, k at level 200).
Notation "'do' ' pat <~ m ; k" :=
  (bind m (fun x => match x with pat => k end))
  (at level 10, pat pattern, m at level 100, k at level 200).

(** ** getRIndex *)

(** The loop [for i := len(strs) - 1; i >= 0; i--]: [getRIndex_from strs str n]
    scans the indices [n-1], ..., [0]. *)
Fixpoint getRIndex_from (strs : list string) (str : string) (n : nat) : Z :=
  match n with
  | O => -1
  | S i =>
      match strs !! i with
      | Some s => if String.eqb s str then Z.of_nat i
                  else getRIndex_from strs str i
      | None => getRIndex_from strs str i
      end
  end.

Definition getRIndex (strs : list string) (str : string) : Z :=
  getRIndex_from strs str (length strs).

(** [cs[idx]] for an [int] index: out of range panics. *)
Definition index {A : Type} (l : list A) (idx : Z) : res A :=
  if idx <? 0 then Panic
  else match l !! Z.to_nat idx with
       | Some a => Ret a
       | None => Panic
       end.

(** ** sortCallbacks *)

(** The variables the closure [sortCallback] shares with [sortCallbacks]:
    the declarations behind the pointers of [cs], and [sorted]. *)
Record sorter : Type := mkSorter {
  s_cs : list callback;
  s_sorted : list string
}.

Definition conflict (n target : string) : error :=
  ErrorfMsg
    (String.append "conflicting callback "
       (String.append n (String.append " with before " target))).

(** First loop: [names], and the duplicate warnings. *)
Fixpoint scan_names (cs : list callback) (rest : list callback)
    (names : list string) (warns : list logentry)
    : res (list string * list logentry) :=
  match rest with
  | [] => Ret (names, warns)
  | c :: rest' =>
      let idx := getRIndex names (name c) in
      do warns' <~
        (if idx >? -1 then
           if negb (replace c) && negb (remove c) then
             do prev <~ index cs idx ;
             Ret (if negb (remove prev) then warns ++ [WarnDuplicated (name c)]
                  else warns)
           else Ret warns
         else Ret warns) ;
      scan_names cs rest' (names ++ [name c]) warns'
  end.

(** The block guarded by a non-empty [c.before] in the closure, for the
    declaration at index [i]. *)
Definition place_before (names : list string) (i : nat) (st : sorter)
    : res (sorter * option error) :=
  do c <~ index (s_cs st) (Z.of_nat i) ;
  if String.eqb (before c) "" then Ret (st, None)
  else
    let sortedIdx := getRIndex (s_sorted st) (before c) in
    if negb (sortedIdx =? -1) then
      let curIdx := getRIndex (s_sorted st) (name c) in
      if curIdx =? -1 then
        let k := Z.to_nat sortedIdx in
        Ret (mkSorter (s_cs st)
               (take k (s_sorted st) ++ [name c] ++ drop k (s_sorted st)),
             None)
      else if curIdx >? sortedIdx then
        Ret (st, Some (conflict (name c) (before c)))
      else Ret (st, None)
    else
      let idx := getRIndex names (before c) in
      if negb (idx =? -1) then
        do tgt <~ index (s_cs st) idx ;
        Ret (mkSorter (<[Z.to_nat idx := set_after (name c) tgt]> (s_cs st))
               (s_sorted st),
             None)
      else Ret (st, None).

(** The final [if getRIndex(sorted, c.name) == -1] of the closure. *)
Definition place_last (i : nat) (st : sorter) : res (sorter * option error) :=
  do c <~ index (s_cs st) (Z.of_nat i) ;
  if getRIndex (s_sorted st) (name c) =? -1 then
    Ret (mkSorter (s_cs st) (s_sorted st ++ [name c]), None)
  else Ret (st, None).

(** The block guarded by a non-empty [c.after], and the final block, for
    the declaration at index [i]; [self] stands for the closure in its two
    recursive calls. *)
Definition place_after (self : nat -> sorter -> res (sorter * option error))
    (names : list string) (i : nat) (st : sorter)
    : res (sorter * option error) :=
  do c <~ index (s_cs st) (Z.of_nat i) ;
  if String.eqb (after c) "" then place_last i st
  else
    let sortedIdx := getRIndex (s_sorted st) (after c) in
    if negb (sortedIdx =? -1) then
      let curIdx := getRIndex (s_sorted st) (name c) in
      if curIdx =? -1 then
        place_last i (mkSorter (s_cs st) (s_sorted st ++ [name c]))
      else if curIdx <? sortedIdx then
        Ret (st, Some (conflict (name c) (after c)))
      else place_last i st
    else
      let idx := getRIndex names (after c) in
      if negb (idx =? -1) then
        do tgt <~ index (s_cs st) idx ;
        let st2 :=
          if String.eqb (before tgt) "" then
            mkSorter (<[Z.to_nat idx := set_before (name c) tgt]> (s_cs st))
              (s_sorted st)
          else st in
        do '(st3, err3) <~ self (Z.to_nat idx) st2 ;
        match err3 with
        | Some e => Ret (st3, Some e)
        | None =>
            do '(st4, err4) <~ self i st3 ;
            match err4 with
            | Some e => Ret (st4, Some e)
            | None => place_last i st4
            end
        end
      else place_last i st.

(** The closure [sortCallback], called on the pointer [cs[i]]; [fuel]
    bounds the depth of the recursion. *)
Fixpoint sortCallback (fuel : nat) (names : list string) (i : nat)
    (st : sorter) : res (sorter * option error) :=
  match fuel with
  | O => OutOfFuel
  | S fuel' =>
      do '(st1, err) <~ place_before names i st ;
      match err with
      | Some e => Ret (st1, Some e)
      | None => place_after (sortCallback fuel' names) names i st1
      end
  end.

(** Second loop: [for _, c := range cs], over the indices still to visit. *)
Fixpoint sort_all (fuel : nat) (names : list string) (todo : list nat)
    (st : sorter) : res (sorter * option error) :=
  match todo with
  | [] => Ret (st, None)
  | i :: todo' =>
      do '(st', err) <~ sortCallback fuel names i st ;
      match err with
      | Some e => Ret (st', Some e)
      | None => sort_all fuel names todo' st'
      end
  end.

(** Third loop: the handlers of [sorted]. *)
Fixpoint collect (cs : list callback) (names sorted : list string)
    (acc : list (option Handler)) : res (list (option Handler)) :=
  match sorted with
  | [] => Ret acc
  | n :: sorted' =>
      do c <~ index cs (getRIndex names n) ;
      collect cs names sorted'
        (if negb (remove c) then acc ++ [handler c] else acc)
  end.

(** What [sortCallbacks] leaves behind: the declarations as the closure
    rewrote them, the warnings, and the two results [fns] and [err]. *)
Record sorted_result : Type := mkSorted {
  r_cs : list callback;
  r_warns : list logentry;
  r_fns : list (option Handler);
  r_err : option error
}.

Definition sortCallbacks (fuel : nat) (cs : list callback) : res sorted_result :=
  do '(names, warns) <~ scan_names cs cs [] [] ;
  do '(st, err) <~ sort_all fuel names (seq 0 (length cs)) (mkSorter cs []) ;
  match err with
  | Some e => Ret (mkSorted (s_cs st) warns [] (Some e))
  | None =>
      do fns' <~ collect (s_cs st) names (s_sorted st) [] ;
      Ret (mkSorted (s_cs st) warns fns' None)
  end.

(** ** compile and the registration operations *)

(** The declarations a compile selects by their [match] predicate. *)
Definition matched (p : processor) : list callback :=
  List.filter (fun c => match match_ c with
                        | None => true
                        | Some m => m (db p)
                        end) (callbacks p).

(** [compile]: the local slice [callbacks] is filled by the first loop,
    and [sortCallbacks] is then called on [p.callbacks]. Both results of
    [sortCallbacks] are assigned, [p.fns] included, before the error is
    looked at. [lg] is [logger.Default]. *)
Definition compile (fuel : nat) (p : processor) (lg : list logentry)
    : res (processor * list logentry * option error) :=
  let callbacks' := matched p in
  do r <~ sortCallbacks fuel (callbacks p) ;
  let p' := mkProcessor (db p) (r_fns r) (r_cs r) in
  match r_err r with
  | Some e => Ret (p', lg ++ r_warns r ++ [ErrorCompile e], Some e)
  | None => Ret (p', lg ++ r_warns r, None)
  end.

Definition append_callback (c : callback) (p : processor) : processor :=
  mkProcessor (db p) (fns p) (callbacks p ++ [c]).

(** The methods of the builder [c]; [p] is the processor [c.processor]
    points to. *)
Definition callback_Before (n : string) (c : callback) : callback :=
  set_before n c.

Definition callback_After (n : string) (c : callback) : callback :=
  set_after n c.

Definition callback_Register (fuel : nat) (c : callback) (n : string)
    (fn : option Handler) (p : processor) (lg : list logentry)
    : res (processor * list logentry * option error) :=
  let c' := set_handler fn (set_name n c) in
  compile fuel (append_callback c' p) lg.

Definition callback_Remove (fuel : nat) (c : callback) (n : string)
    (p : processor) (lg : list logentry)
    : res (processor * list logentry * option error) :=
  let lg' := lg ++ [WarnRemoving n] in
  let c' := set_remove true (set_name n c) in
  compile fuel (append_callback c' p) lg'.

Definition callback_Replace (fuel : nat) (c : callback) (n : string)
    (fn : option Handler) (p : processor) (lg : list logentry)
    : res (processor * list logentry * option error) :=
  let lg' := lg ++ [InfoReplacing n] in
  let c' := set_replace true (set_handler fn (set_name n c)) in
  compile fuel (append_callback c' p) lg'.

(** The methods of the processor that start a builder. *)
Definition Before (n : string) : callback := set_before n new_callback.
Definition After (n : string) : callback := set_after n new_callback.
Definition Match (fc : option Matcher) : callback := set_match fc new_callback.

(** The methods of the processor that register at once. *)
Definition Register (fuel : nat) (n : string) (fn : option Handler)
    (p : processor) (lg : list logentry) :=
  callback_Register fuel new_callback n fn p lg.

Definition Remove (fuel : nat) (n : string) (p : processor)
    (lg : list logentry) :=
  callback_Remove fuel new_callback n p lg.

Definition Replace (fuel : nat) (n : string) (fn : option Handler)
    (p : processor) (lg : list logentry) :=
  callback_Replace fuel new_callback n fn p lg.

(** [Get]: the loop [for i := len(p.callbacks) - 1; i >= 0; i--];
    [Get_from cs n k] scans the indices [k-1], ..., [0]. The result is a
    function value, nil when nothing is found. *)
Fixpoint Get_from (cs : list callback) (n : string) (k : nat)
    : option Handler :=
  match k with
  | O => None
  | S i =>
      match cs !! i with
      | Some v => if String.eqb (name v) n && negb (remove v) then handler v
                  else Get_from cs n i
      | None => Get_from cs n i
      end
  end.

Definition Get (p : processor) (n : string) : option Handler :=
  Get_from (callbacks p) n (length (callbacks p)).

(** ** Execute *)

Definition set_Statement (s : option Statement) (d : DB) : DB :=
  mkDB s (Error d) (RowsAffected d) (Logger d).

Definition set_Model (m : option value) (s : Statement) : Statement :=
  mkStatement m (Dest s) (Table s) (ReflectValue s) (SQL s) (Vars s)
    (stmt_Error s) (stmt_RowsAffected s).

Definition set_ReflectValue (r : option value) (s : Statement) : Statement :=
  mkStatement (Model s) (Dest s) (Table s) r (SQL s) (Vars s)
    (stmt_Error s) (stmt_RowsAffected s).

(** The loop over [p.fns]; calling a nil function value panics. *)
Fixpoint run_handlers (hs : list (option Handler)) (d : DB) : res DB :=
  match hs with
  | [] => Ret d
  | None :: _ => Panic
  | Some f :: hs' => run_handlers hs' (f d)
  end.

(** [if stmt.Model == nil { stmt.Model = stmt.Dest }] *)
Definition default_model (stmt : Statement) : Statement :=
  match Model stmt with
  | None => set_Model (Dest stmt) stmt
  | Some _ => stmt
  end.

(** [stmt.ReflectValue = reflect.Indirect(reflect.ValueOf(stmt.Dest))], on
    the statement the call holds. *)
Definition reflect_dest (d : DB) : DB :=
  match Statement_ d with
  | Some s =>
      set_Statement (Some (set_ReflectValue (reflect_Indirect (Dest s)) s)) d
  | None => d
  end.

Section Execution.

(** The collaborators of [Execute] that live outside [callbacks.go]:
    [stmt.Parse], which may fill in the statement it is called on,
    [db.AddError], and the dialector's [Explain]. The statement is the
    object [db.Statement] points to, so [AddError] sees and returns it
    inside the [DB]. *)
Variable Parse : Statement -> value -> Statement * option error.
Variable AddError : DB -> error -> DB.
Variable Explain : string -> list value -> string.

(** The test on the result of [stmt.Parse]. *)
Definition surfaces (err : error) (stmt : Statement) : bool :=
  negb (errors_Is err ErrUnsupportedDataType) || String.eqb (Table stmt) "".

(** The [if stmt.Model != nil] block. *)
Definition parse_model (stmt : Statement) (d : DB) : DB :=
  match Model stmt with
  | Some m =>
      let '(stmt', err) := Parse stmt m in
      let d' := set_Statement (Some stmt') d in
      match err with
      | Some e => if surfaces e stmt' then AddError d' e else d'
      | None => d'
      end
  | None => set_Statement (Some stmt) d
  end.

(** The first [if stmt := db.Statement; stmt != nil] block. *)
Definition prepare (d : DB) : DB :=
  match Statement_ d with
  | None => d
  | Some stmt => reflect_dest (parse_model (default_model stmt) d)
  end.

(** The second [if stmt := db.Statement; stmt != nil] block. *)
Definition finish (curTime : Z) (d : DB) : DB :=
  match Statement_ d with
  | None => d
  | Some stmt =>
      let err := stmt_Error stmt in
      let rows := stmt_RowsAffected stmt in
      mkDB (Statement_ d) err rows
        (Logger d ++ [mkTrace curTime (Explain (SQL stmt) (Vars stmt)) rows err])
  end.

(** [curTime] is the reading of [time.Now()] at entry. *)
Definition Execute (p : processor) (curTime : Z) (d : DB) : res DB :=
  do d' <~ run_handlers (fns p) (prepare d) ;
  Ret (finish curTime d').

End Execution.

End Gorm.

Import Gorm.

(** * Scenarios *)

(** The three operations that change the declarations of a processor. *)
Inductive mutation : Type :=
| DoRegister (c : callback) (n : string) (fn : option Handler)
| DoRemove (c : callback) (n : string)
| DoReplace (c : callback) (n : string) (fn : option Handler).

Definition mutate (fuel : nat) (m : mutation) (p : processor)
    (lg : list logentry) : res (processor * list logentry * option error) :=
  match m with
  | DoRegister c n fn => callback_Register fuel c n fn p lg
  | DoRemove c n => callback_Remove fuel c n p lg
  | DoReplace c n fn => callback_Replace fuel c n fn p lg
  end.

(** The declaration a mutation appends. *)
Definition declaration (m : mutation) : callback :=
  match m with
  | DoRegister c n fn => set_handler fn (set_name n c)
  | DoRemove c n => set_remove true (set_name n c)
  | DoReplace c n fn => set_replace true (set_handler fn (set_name n c))
  end.

(** A handler that leaves the call as it is. *)
Definition noop : Handler := fun d => d.

Definition empty_db : DB := mkDB None None 0 [].

(** A declaration with constraints and a handler, nothing else set. *)
Definition decl (n b a : string) (h : option Handler) : callback :=
  mkCallback n b a false false None h.

(** [a] registered with [After("b")], [b] registered with [After("a")]. *)
Definition mutual_after (ha hb : option Handler) : list callback :=
  [ decl "a" "" "b" ha; decl "b" "" "a" hb ].

(** The same declarations once the closure has filled in both [before]
    fields. *)
Definition mutual_after_filled (ha hb : option Handler) : list callback :=
  [ decl "a" "b" "b" ha; decl "b" "a" "a" hb ].

(** [a] registered with [Before("b")], [b] registered with [Before("a")]. *)
Definition mutual_before (ha hb : option Handler) : list callback :=
  [ decl "a" "b" "" ha; decl "b" "a" "" hb ].

(** The processor after [Register("a", noop)], and a second declaration
    that asks to run both before and after [a]. *)
Definition one_registered : processor :=
  mkProcessor empty_db [Some noop] [decl "a" "" "" (Some noop)].

Definition around_a : callback := callback_After "a" (Before "a").

(** What the resolver never writes: every field of a declaration except
    [before] and [after]. *)
Definition frame (c : callback)
    : string * bool * bool * option Matcher * option Handler :=
  (name c, remove c, replace c, match_ c, handler c).

(** The handler the third loop of [sortCallbacks] takes for the name [n]:
    the one of the last declaration of that name, unless it is a
    tombstone. *)
Definition live (names : list string) (cs : list callback) (n : string)
    : option (option Handler) :=
  match index cs (getRIndex names n) with
  | Ret c => if remove c then None else Some (handler c)
  | _ => None
  end.

(** [a] before [b], [b] after [c], [c]: the constraints are satisfiable,
    by the order [a], [c], [b] for one. *)
Definition before_meets_after (ha hb hc : option Handler) : list callback :=
  [ decl "a" "b" "" ha; decl "b" "" "c" hb; decl "c" "" "" hc ].

(** The declarations of [After("d").Register("a")], [Register("b")],
    [Before("a").Register("c")], [Before("b").After("c").Register("d")], as
    the fourth registration hands them to [compile]; the compiled list is
    the one of the third registration. *)
Definition four_declared (d : DB) (ha hb hc hd : option Handler) : processor :=
  mkProcessor d [hc; ha; hb]
    [ decl "a" "" "d" ha; decl "b" "" "" hb;
      decl "c" "a" "" hc; decl "d" "b" "c" hd ].

(** The same processor after one compile, and after two. *)
Definition four_compiled (d : DB) (ha hb hc hd : option Handler) : processor :=
  mkProcessor d [hc; hd; ha; hb]
    [ decl "a" "" "c" ha; decl "b" "" "d" hb;
      decl "c" "a" "" hc; decl "d" "b" "c" hd ].

Definition four_recompiled (d : DB) (ha hb hc hd : option Handler)
    : processor :=
  mkProcessor d [hc; ha; hd; hb]
    [ decl "a" "" "c" ha; decl "b" "" "d" hb;
      decl "c" "a" "" hc; decl "d" "b" "c" hd ].

(** A handler that can be told from [noop]. *)
Definition count_row : Handler :=
  fun d => mkDB (Statement_ d) (Error d) (RowsAffected d + 1) (Logger d).

(** A declaration without ordering constraints. *)
Definition unconstrained (c : callback) : Prop :=
  before c = "" /\ after c = "".

(** What a call of the closure guarantees when it returns: the
    declarations keep their frames, [sorted] loses no name, and without an
    error the name of the declaration is in [sorted]. *)
Definition settles (i : nat) (st st' : sorter) (e : option error) : Prop :=
  map frame (s_cs st') = map frame (s_cs st)
  /\ (forall n, In n (s_sorted st) -> In n (s_sorted st'))
  /\ (e = None -> forall c, s_cs st !! i = Some c -> In (name c) (s_sorted st')).

(** A call on the table [users] whose model the schema parser rejects for
    a reason other than an unsupported data type. *)
Definition users_stmt : Statement :=
  mkStatement (Some (VStruct "User")) None "users" None "" [] None 0.

Definition users_db : DB := mkDB (Some users_stmt) None 0 [].

Definition invalid_model : error := ErrorfMsg "invalid model".

Definition parse_rejects : Statement -> value -> Statement * option error :=
  fun stmt _ => (stmt, Some invalid_model).

(** An error accumulator that keeps the last error in the [DB]. *)
Definition keep_error : DB -> error -> DB :=
  fun d e => mkDB (Statement_ d) (Some e) (RowsAffected d) (Logger d).

Definition explain_sql : string -> list value -> string :=
  fun sql _ => sql.

(** A handler that gives the call a statement. *)
Definition late_stmt : Statement :=
  mkStatement None None "users" None "SELECT 1" []
    (Some (ErrorfMsg "late")) 7.

Definition install_statement : Handler :=
  fun d => mkDB (Some late_stmt) (Error d) (RowsAffected d) (Logger d).

(** The test [Get] applies to a declaration. *)
Definition answers (n : string) (v : callback) : bool :=
  String.eqb (name v) n && negb (remove v).

(** [one_registered] after [Replace("a", count_row)]. *)
Definition replaced_a : processor :=
  mkProcessor empty_db [Some count_row]
    [ decl "a" "" "" (Some noop);
      mkCallback "a" "" "" false true None (Some count_row) ].

(** The invariant of the resolver state: the declarations still carry the
    names of [names], and [sorted] holds declared names, each once. *)
Definition well_placed (names : list string) (st : sorter) : Prop :=
  map name (s_cs st) = names
  /\ (forall n, In n (s_sorted st) -> In n names)
  /\ NoDup (s_sorted st).

(** A result that is not a panic and, when the closure returned, keeps the
    invariant. *)
Definition safe (names : list string) (r : res (sorter * option error))
    : Prop :=
  match r with
  | Ret (st', _) => well_placed names st'
  | Panic => False
  | OutOfFuel => True
  end.

(** Whether the first loop of the resolver warns about the declaration [c]
    when it follows the declarations [cs]. *)
Definition duplicates (cs : list callback) (c : callback) : bool :=
  match index cs (getRIndex (map name cs) (name c)) with
  | Ret prev => negb (replace c) && negb (remove c) && negb (remove prev)
  | _ => false
  end.

(** A declaration that asks for nothing the resolver has to act on when
    the names [placed] are in [sorted]: its [before] is empty or names no
    declared callback, its [after] is empty, names no declared callback, or
    names a callback that is placed. *)
Definition points_back (names placed : list string) (c : callback) : Prop :=
  (before c = "" \/ ~ In (before c) names)
  /\ (after c = "" \/ ~ In (after c) names \/ In (after c) placed).

(** Every declaration of [post] points back to those before it, [pre]
    first. *)
Fixpoint backward (names : list string) (pre post : list callback) : Prop :=
  match post with
  | [] => True
  | c :: post' =>
      points_back names (map name pre) c /\ backward names (pre ++ [c]) post'
  end.

(** The handlers of a list of declarations, tombstones left out. *)
Definition live_handlers (l : list callback) : list (option Handler) :=
  omap (fun c => if remove c then None else Some (handler c)) l.

(** [append(l[:k], append([]T{x}, l[k:]...)...)]: [x] put at index [k]. *)
Definition insert_at {A : Type} (k : nat) (x : A) (l : list A) : list A :=
  take k l ++ [x] ++ drop k l.

(** Two plain declarations, and a third to be registered before [b]. *)
Definition two_plain : list callback :=
  [ decl "a" "" "" (Some noop); decl "b" "" "" (Some count_row) ].

Definition before_b : callback := decl "n" "b" "" None.

(** A declaration that asks to run before [a] and after [b]. *)
Definition before_a_after_b : callback := decl "n" "a" "b" None.

(** A processor whose compiled list is [count_row] twice. *)
Definition twice_counted : processor :=
  mkProcessor empty_db [Some count_row; Some count_row] [].


(** * Properties *)

(** ** The recursion bound *)

(** A call of the closure that returns within a bound returns the same
    within any larger bound. *)
Lemma sortCallback_unfold (fuel : nat) names i st :
  sortCallback (S fuel) names i st =
  (do '(st1, err) <~ place_before names i st ;
   match err with
   | Some e => Ret (st1, Some e)
   | None => place_after (sortCallback fuel names) names i st1
   end).
Proof. reflexivity. Qed.

Lemma sortCallback_fuel_S (fuel : nat) :
  forall names i st r,
    sortCallback fuel names i st = Ret r ->
    sortCallback (S fuel) names i st = Ret r.
Proof.
  induction fuel as [|fuel IH]; intros names i st r H; [discriminate|].
  rewrite sortCallback_unfold in H. rewrite sortCallback_unfold.
  destruct (place_before names i st) as [[st1 [e|]]| |]; cbn [bind] in *;
    try done.
  unfold place_after in H |- *.
  destruct (index (s_cs st1) (Z.of_nat i)) as [c| |]; cbn [bind] in *;
    try done.
  destruct (String.eqb (after c) ""); try done.
  cbv zeta in H |- *.
  destruct (negb (getRIndex (s_sorted st1) (after c) =? -1)); try done.
  destruct (negb (getRIndex names (after c) =? -1)); try done.
  destruct (index (s_cs st1) (getRIndex names (after c))) as [tgt| |];
    cbn [bind] in *; try done.
  set (st2 := if String.eqb (before tgt) "" then _ else _) in *.
  destruct (sortCallback fuel names (Z.to_nat (getRIndex names (after c))) st2)
    as [[st3 err3]| |] eqn:E3; cbn [bind] in H; try done.
  rewrite (IH _ _ _ _ E3); cbn [bind].
  destruct err3 as [e|]; try done.
  destruct (sortCallback fuel names i st3) as [[st4 err4]| |] eqn:E4;
    cbn [bind] in H; try done.
  rewrite (IH _ _ _ _ E4); cbn [bind]. done.
Qed.

Lemma sortCallback_fuel_mono (fuel extra : nat) names i st r :
  sortCallback fuel names i st = Ret r ->
  sortCallback (extra + fuel) names i st = Ret r.
Proof.
  intros H. induction extra as [|extra IH]; [exact H|].
  apply sortCallback_fuel_S in IH. exact IH.
Qed.

Lemma sort_all_fuel_mono (fuel extra : nat) names todo :
  forall st r,
    sort_all fuel names todo st = Ret r ->
    sort_all (extra + fuel) names todo st = Ret r.
Proof.
  induction todo as [|i todo IH]; intros st r H; [exact H|].
  cbn [sort_all] in *.
  destruct (sortCallback fuel names i st) as [[st' err]| |] eqn:E;
    cbn [bind] in H; try discriminate.
  rewrite (sortCallback_fuel_mono fuel extra _ _ _ _ E); cbn [bind].
  destruct err as [e|]; [exact H | apply IH; exact H].
Qed.

Lemma sortCallbacks_fuel_mono (fuel extra : nat) cs r :
  sortCallbacks fuel cs = Ret r ->
  sortCallbacks (extra + fuel) cs = Ret r.
Proof.
  unfold sortCallbacks.
  destruct (scan_names cs cs [] []) as [[names warns]| |]; cbn [bind];
    try discriminate.
  destruct (sort_all fuel names (seq 0 (length cs)) (mkSorter cs []))
    as [[st err]| |] eqn:E; cbn [bind]; try discriminate.
  rewrite (sort_all_fuel_mono fuel extra _ _ _ _ E); cbn [bind].
  intros H; exact H.
Qed.

Lemma compile_fuel_mono (fuel extra : nat) p lg r :
  compile fuel p lg = Ret r ->
  compile (extra + fuel) p lg = Ret r.
Proof.
  unfold compile.
  destruct (sortCallbacks fuel (callbacks p)) as [x| |] eqn:E; cbn [bind];
    try discriminate.
  rewrite (sortCallbacks_fuel_mono fuel extra _ _ E); cbn [bind].
  intros H; exact H.
Qed.

(** ** Cycles between [after] constraints *)

Lemma mutual_after_filled_loops (ha hb : option Handler) (fuel : nat) :
  sortCallback fuel ["a"; "b"] 0 (mkSorter (mutual_after_filled ha hb) [])
    = OutOfFuel
  /\ sortCallback fuel ["a"; "b"] 1 (mkSorter (mutual_after_filled ha hb) [])
    = OutOfFuel.
Proof.
  induction fuel as [|fuel [IH0 IH1]]; [split; reflexivity|].
  unfold mutual_after_filled, decl in *.
  split; rewrite sortCallback_unfold; cbv -[sortCallback Matcher Handler].
  - rewrite IH1. reflexivity.
  - rewrite IH0. reflexivity.
Qed.

Lemma mutual_after_first_call_loops (ha hb : option Handler) (fuel : nat) :
  sortCallback fuel ["a"; "b"] 0 (mkSorter (mutual_after ha hb) []) = OutOfFuel.
Proof.
  destruct fuel as [|[|fuel]]; try reflexivity.
  rewrite sortCallback_unfold.
  unfold mutual_after, decl. cbv -[sortCallback Matcher Handler].
  rewrite sortCallback_unfold. cbv -[sortCallback Matcher Handler].
  pose proof (mutual_after_filled_loops ha hb fuel) as [L0 _].
  unfold mutual_after_filled, decl in L0. rewrite L0. reflexivity.
Qed.

Lemma mutual_after_sort_all_loops (ha hb : option Handler) (fuel : nat) :
  sort_all fuel ["a"; "b"] [0; 1]%nat (mkSorter (mutual_after ha hb) [])
  = OutOfFuel.
Proof.
  cbn [sort_all]. rewrite mutual_after_first_call_loops. reflexivity.
Qed.

(** C1, at the input [a] after [b], [b] after [a]: whatever the bound on
    the recursion depth, [sortCallbacks] exceeds it, so the resolver
    neither returns an ordering nor reports the conflict; and the second
    of the two registrations that build this input never returns. *)
Theorem sortCallbacks_mutual_after_diverges (ha hb : option Handler)
    (fuel : nat) (d : DB) :
  sortCallbacks fuel (mutual_after ha hb) = OutOfFuel
  /\ (do '(p, lg, _) <~
        callback_Register 1 (After "b") "a" ha (new_processor d) [] ;
      callback_Register fuel (After "a") "b" hb p lg) = OutOfFuel.
Proof.
  assert (Hsort : sortCallbacks fuel (mutual_after ha hb) = OutOfFuel).
  { unfold sortCallbacks.
    change (scan_names (mutual_after ha hb) (mutual_after ha hb) [] [])
      with (Ret (A := list string * list logentry) (["a"; "b"], [])).
    cbn [bind length seq mutual_after].
    rewrite mutual_after_sort_all_loops. reflexivity. }
  split; [exact Hsort|].
  change (callback_Register 1 (After "b") "a" ha (new_processor d) [])
    with (Ret (mkProcessor d [ha] [decl "a" "" "b" ha],
               @nil logentry, @None error)).
  cbn [bind]. unfold callback_Register, compile.
  change (callbacks _) with (mutual_after ha hb).
  rewrite Hsort. reflexivity.
Qed.

(** A cycle between two [before] constraints, in contrast, is reported. *)
Lemma sortCallbacks_mutual_before_conflict (ha hb : option Handler)
    (fuel : nat) :
  sortCallbacks (1 + fuel) (mutual_before ha hb)
  = Ret (mkSorted [ decl "a" "b" "" ha; decl "b" "a" "a" hb ]
           [] [] (Some (conflict "b" "a"))).
Proof.
  rewrite Nat.add_comm. apply sortCallbacks_fuel_mono. reflexivity.
Qed.

(** ** compile *)


(** C2, at a single declaration whose match predicate is false: the
    predicate selects nothing, and the handler is compiled all the same,
    because [compile] sorts [p.callbacks] and not the selection. *)
Theorem compile_keeps_unmatched (fuel : nat) (d : DB) (h : Handler) :
  let c := Match (Some (fun _ => false)) in
  exists p',
    callback_Register (1 + fuel) c "a" (Some h) (new_processor d) []
      = Ret (p', [], None)
    /\ matched p' = []
    /\ fns p' = [Some h].
Proof.
  eexists. split; [|split].
  - rewrite Nat.add_comm. apply compile_fuel_mono. reflexivity.
  - reflexivity.
  - reflexivity.
Qed.

Lemma compile_inv (fuel : nat) p lg p' lg' err :
  compile fuel p lg = Ret (p', lg', err) ->
  exists r,
    sortCallbacks fuel (callbacks p) = Ret r
    /\ p' = mkProcessor (db p) (r_fns r) (r_cs r)
    /\ err = r_err r
    /\ lg' = lg ++ r_warns r ++
             match r_err r with Some e => [ErrorCompile e] | None => [] end.
Proof.
  unfold compile.
  destruct (sortCallbacks fuel (callbacks p)) as [r| |]; cbn [bind];
    try discriminate.
  intros H. exists r. split; [reflexivity|].
  destruct (r_err r) as [e|]; inversion H; subst;
    rewrite ?app_nil_r; auto.
Qed.

Lemma sortCallbacks_err_fns (fuel : nat) cs r e :
  sortCallbacks fuel cs = Ret r -> r_err r = Some e -> r_fns r = [].
Proof.
  unfold sortCallbacks.
  destruct (scan_names cs cs [] []) as [[names warns]| |]; cbn [bind];
    try discriminate.
  destruct (sort_all fuel names (seq 0 (length cs)) (mkSorter cs []))
    as [[st [e'|]]| |]; cbn [bind]; try discriminate.
  - intros H _. inversion H. reflexivity.
  - destruct (collect (s_cs st) names (s_sorted st) []); cbn [bind];
      try discriminate.
    intros H He. inversion H; subst. discriminate.
Qed.

Lemma compile_error_fns (fuel : nat) p lg p' lg' e :
  compile fuel p lg = Ret (p', lg', Some e) ->
  fns p' = [] /\ last lg' = Some (ErrorCompile e).
Proof.
  intros H. apply compile_inv in H as (r & Hs & -> & He & ->).
  symmetry in He. split.
  - exact (sortCallbacks_err_fns _ _ _ _ Hs He).
  - rewrite He, app_assoc. apply last_snoc.
Qed.

(** C3, as the code has it: when the resolver fails with a conflict on
    the declarations a registration, removal or replacement leaves, the
    operation returns that error, the last entry of the log is the error,
    and the compiled handler list of the processor is empty afterwards. *)
Theorem mutate_conflict_clears_fns (fuel : nat) (m : mutation)
    (p : processor) (lg : list logentry) (r : sorted_result) (e : error) :
  sortCallbacks fuel (callbacks p ++ [declaration m]) = Ret r ->
  r_err r = Some e ->
  exists p' lg',
    mutate fuel m p lg = Ret (p', lg', Some e)
    /\ fns p' = []
    /\ last lg' = Some (ErrorCompile e).
Proof.
  intros Hs He.
  assert (H : forall lg0,
    exists p' lg',
      compile fuel (append_callback (declaration m) p) lg0
        = Ret (p', lg', Some e)
      /\ fns p' = [] /\ last lg' = Some (ErrorCompile e)).
  { intros lg0.
    assert (Hc : compile fuel (append_callback (declaration m) p) lg0
                 = Ret (mkProcessor (db p) (r_fns r) (r_cs r),
                        lg0 ++ r_warns r ++ [ErrorCompile e], Some e)).
    { unfold compile, append_callback. cbn [callbacks db].
      rewrite Hs. cbn [bind]. rewrite He. reflexivity. }
    eexists _, _. split; [exact Hc|].
    exact (compile_error_fns _ _ _ _ _ _ Hc). }
  destruct m; cbn [mutate declaration] in *; unfold callback_Register,
    callback_Remove, callback_Replace; apply H.
Qed.

Lemma mutate_conflict_clears_fns_witness :
  exists p' lg',
    mutate 1 (DoRegister around_a "b" (Some noop)) one_registered []
      = Ret (p', lg', Some (conflict "b" "a"))
    /\ fns p' = []
    /\ last lg' = Some (ErrorCompile (conflict "b" "a")).
Proof.
  apply (mutate_conflict_clears_fns 1
           (DoRegister around_a "b" (Some noop)) one_registered []
           (mkSorted [decl "a" "" "" (Some noop);
                      mkCallback "b" "a" "a" false false None (Some noop)]
              [] [] (Some (conflict "b" "a")))).
  - vm_compute. reflexivity.
  - reflexivity.
Defined.

(** C3 as stated fails: the failing registration does not leave the
    compiled list [[noop]] in place. *)
Lemma mutate_conflict_drops_compiled :
  exists p' lg' e,
    mutate 1 (DoRegister around_a "b" (Some noop)) one_registered []
      = Ret (p', lg', Some e)
    /\ fns one_registered = [Some noop]
    /\ fns p' <> fns one_registered.
Proof.
  eexists _, _, _. split; [reflexivity|]. split; [reflexivity|].
  cbn. discriminate.
Qed.

(** ** What the resolver leaves untouched *)

Lemma index_lookup {A : Type} (l : list A) (idx : Z) (a : A) :
  index l idx = Ret a -> 0 <= idx /\ l !! Z.to_nat idx = Some a.
Proof.
  unfold index. destruct (idx <? 0) eqn:E; [discriminate|].
  apply Z.ltb_ge in E.
  destruct (l !! Z.to_nat idx) as [x|]; [|discriminate].
  intros H; inversion H; subst. split; [exact E | reflexivity].
Qed.

Lemma map_frame_insert (cs : list callback) (k : nat) (c tgt : callback) :
  cs !! k = Some tgt -> frame c = frame tgt ->
  map frame (<[k := c]> cs) = map frame cs.
Proof.
  intros Hk Hf.
  change (frame <$> <[k := c]> cs = frame <$> cs).
  rewrite list_fmap_insert, Hf. apply list_insert_id.
  rewrite list_lookup_fmap, Hk. reflexivity.
Qed.

Lemma place_before_frame names i st st' e :
  place_before names i st = Ret (st', e) ->
  map frame (s_cs st') = map frame (s_cs st).
Proof.
  unfold place_before.
  destruct (index (s_cs st) (Z.of_nat i)) as [c| |]; cbn [bind];
    try discriminate.
  destruct (String.eqb (before c) ""); [intros H; inversion H; reflexivity|].
  cbv zeta.
  destruct (negb (getRIndex (s_sorted st) (before c) =? -1)).
  - destruct (getRIndex (s_sorted st) (name c) =? -1);
      [|destruct (getRIndex (s_sorted st) (name c) >?
                  getRIndex (s_sorted st) (before c))];
      intros H; inversion H; reflexivity.
  - destruct (negb (getRIndex names (before c) =? -1));
      [|intros H; inversion H; reflexivity].
    destruct (index (s_cs st) (getRIndex names (before c))) as [tgt| |] eqn:E;
      cbn [bind]; try discriminate.
    intros H; inversion H; subst; cbn [s_cs].
    apply index_lookup in E as [_ E].
    apply (map_frame_insert _ _ _ tgt E). reflexivity.
Qed.

Lemma place_last_frame i st st' e :
  place_last i st = Ret (st', e) ->
  map frame (s_cs st') = map frame (s_cs st).
Proof.
  unfold place_last.
  destruct (index (s_cs st) (Z.of_nat i)) as [c| |]; cbn [bind];
    try discriminate.
  destruct (getRIndex (s_sorted st) (name c) =? -1);
    intros H; inversion H; reflexivity.
Qed.

Lemma place_after_frame self names i st st' e :
  (forall j s s' e', self j s = Ret (s', e') ->
                     map frame (s_cs s') = map frame (s_cs s)) ->
  place_after self names i st = Ret (st', e) ->
  map frame (s_cs st') = map frame (s_cs st).
Proof.
  intros Hself. unfold place_after.
  destruct (index (s_cs st) (Z.of_nat i)) as [c| |]; cbn [bind];
    try discriminate.
  destruct (String.eqb (after c) ""); [apply place_last_frame|].
  cbv zeta.
  destruct (negb (getRIndex (s_sorted st) (after c) =? -1)).
  - destruct (getRIndex (s_sorted st) (name c) =? -1).
    + intros H. apply place_last_frame in H. exact H.
    + destruct (getRIndex (s_sorted st) (name c) <?
                getRIndex (s_sorted st) (after c));
        [intros H; inversion H; reflexivity | apply place_last_frame].
  - destruct (negb (getRIndex names (after c) =? -1));
      [|apply place_last_frame].
    destruct (index (s_cs st) (getRIndex names (after c))) as [tgt| |] eqn:E;
      cbn [bind]; try discriminate.
    apply index_lookup in E as [_ E].
    set (st2 := if String.eqb (before tgt) "" then _ else _).
    assert (H2 : map frame (s_cs st2) = map frame (s_cs st)).
    { subst st2. destruct (String.eqb (before tgt) ""); [|reflexivity].
      cbn [s_cs]. apply (map_frame_insert _ _ _ tgt E). reflexivity. }
    destruct (self (Z.to_nat (getRIndex names (after c))) st2)
      as [[st3 err3]| |] eqn:E3; cbn [bind]; try discriminate.
    apply Hself in E3.
    destruct err3 as [e3|];
      [intros H; inversion H; subst; congruence|].
    destruct (self i st3) as [[st4 err4]| |] eqn:E4; cbn [bind];
      try discriminate.
    apply Hself in E4.
    destruct err4 as [e4|];
      [intros H; inversion H; subst; congruence|].
    intros H. apply place_last_frame in H. congruence.
Qed.

Lemma sortCallback_frame (fuel : nat) :
  forall names i st st' e,
    sortCallback fuel names i st = Ret (st', e) ->
    map frame (s_cs st') = map frame (s_cs st).
Proof.
  induction fuel as [|fuel IH]; intros names i st st' e; [discriminate|].
  rewrite sortCallback_unfold.
  destruct (place_before names i st) as [[st1 err]| |] eqn:E1; cbn [bind];
    try discriminate.
  apply place_before_frame in E1.
  destruct err as [e1|]; [intros H; inversion H; subst; exact E1|].
  intros H. apply place_after_frame in H; [congruence|].
  intros j s s' e'. apply IH.
Qed.

Lemma sort_all_frame (fuel : nat) names todo :
  forall st st' e,
    sort_all fuel names todo st = Ret (st', e) ->
    map frame (s_cs st') = map frame (s_cs st).
Proof.
  induction todo as [|i todo IH]; intros st st' e; cbn [sort_all].
  - intros H; inversion H; reflexivity.
  - destruct (sortCallback fuel names i st) as [[st1 err]| |] eqn:E1;
      cbn [bind]; try discriminate.
    apply sortCallback_frame in E1.
    destruct err as [e1|]; [intros H; inversion H; subst; exact E1|].
    intros H. apply IH in H. congruence.
Qed.

(** The resolver rewrites nothing but [before] and [after]. *)
Lemma sortCallbacks_frame (fuel : nat) cs r :
  sortCallbacks fuel cs = Ret r -> map frame (r_cs r) = map frame cs.
Proof.
  unfold sortCallbacks.
  destruct (scan_names cs cs [] []) as [[names warns]| |]; cbn [bind];
    try discriminate.
  destruct (sort_all fuel names (seq 0 (length cs)) (mkSorter cs []))
    as [[st err]| |] eqn:E; cbn [bind]; try discriminate.
  apply sort_all_frame in E. cbn [s_cs] in E.
  destruct err as [e|]; [intros H; inversion H; subst; exact E|].
  destruct (collect (s_cs st) names (s_sorted st) []); cbn [bind];
    try discriminate.
  intros H; inversion H; subst; exact E.
Qed.

(** ** Every declaration gets a place *)

Lemma getRIndex_from_in (l : list string) (s : string) (k : nat) :
  getRIndex_from l s k <> -1 -> In s l.
Proof.
  induction k as [|k IH]; cbn [getRIndex_from]; [intros H; contradiction|].
  destruct (l !! k) as [x|] eqn:E; [|exact IH].
  destruct (String.eqb x s) eqn:Ex; [|exact IH].
  intros _. apply String.eqb_eq in Ex. subst x.
  apply list_elem_of_In. apply (list_elem_of_lookup_2 _ _ _ E).
Qed.

Lemma getRIndex_in (l : list string) (s : string) :
  getRIndex l s <> -1 -> In s l.
Proof. apply getRIndex_from_in. Qed.

Lemma In_insert_at (l : list string) (k : nat) (x n : string) :
  In n l -> In n (take k l ++ [x] ++ drop k l).
Proof.
  intros H. rewrite <- (take_drop k l) in H.
  apply in_app_or in H as [H|H]; apply in_or_app; [left; exact H|].
  right. apply in_or_app. right. exact H.
Qed.

Lemma place_before_sorted names i st st' e n :
  place_before names i st = Ret (st', e) ->
  In n (s_sorted st) -> In n (s_sorted st').
Proof.
  unfold place_before.
  destruct (index (s_cs st) (Z.of_nat i)) as [c| |]; cbn [bind];
    try discriminate.
  destruct (String.eqb (before c) ""); [intros H; inversion H; auto|].
  cbv zeta.
  destruct (negb (getRIndex (s_sorted st) (before c) =? -1)).
  - destruct (getRIndex (s_sorted st) (name c) =? -1);
      [|destruct (getRIndex (s_sorted st) (name c) >?
                  getRIndex (s_sorted st) (before c))];
      intros H; inversion H; subst; cbn [s_sorted]; auto.
    apply In_insert_at.
  - destruct (negb (getRIndex names (before c) =? -1));
      [|intros H; inversion H; auto].
    destruct (index (s_cs st) (getRIndex names (before c))); cbn [bind];
      try discriminate.
    intros H; inversion H; subst; cbn [s_sorted]; auto.
Qed.

Lemma place_last_sorted i st st' e n :
  place_last i st = Ret (st', e) ->
  In n (s_sorted st) -> In n (s_sorted st').
Proof.
  unfold place_last.
  destruct (index (s_cs st) (Z.of_nat i)) as [c| |]; cbn [bind];
    try discriminate.
  destruct (getRIndex (s_sorted st) (name c) =? -1);
    intros H; inversion H; subst; cbn [s_sorted]; auto.
  intros Hn. apply in_or_app. left. exact Hn.
Qed.

Lemma place_last_places i st st' e :
  place_last i st = Ret (st', e) ->
  e = None /\
  exists c, s_cs st !! i = Some c /\ In (name c) (s_sorted st').
Proof.
  unfold place_last.
  destruct (index (s_cs st) (Z.of_nat i)) as [c| |] eqn:Ei; cbn [bind];
    try discriminate.
  apply index_lookup in Ei as [_ Ei]. rewrite Nat2Z.id in Ei.
  destruct (getRIndex (s_sorted st) (name c) =? -1) eqn:E;
    intros H; inversion H; subst; cbn [s_sorted]; (split; [reflexivity|]);
    exists c; (split; [exact Ei|]).
  - apply in_or_app. right. left. reflexivity.
  - apply getRIndex_in. apply Z.eqb_neq in E. exact E.
Qed.

Lemma frame_lookup_name (cs cs' : list callback) (i : nat) (c : callback) :
  map frame cs' = map frame cs -> cs !! i = Some c ->
  exists c', cs' !! i = Some c' /\ name c' = name c.
Proof.
  intros Hf Hc.
  assert (H : (frame <$> cs') !! i = (frame <$> cs) !! i)
    by (change (frame <$> cs') with (map frame cs'); rewrite Hf; reflexivity).
  rewrite !list_lookup_fmap, Hc in H.
  destruct (cs' !! i) as [c'|]; [|discriminate].
  cbn in H. inversion H as [[Hn Hr Hp Hm Hh]].
  exists c'. split; [reflexivity | congruence].
Qed.

Lemma place_last_settles i st st' e :
  place_last i st = Ret (st', e) -> settles i st st' e.
Proof.
  intros H. split; [exact (place_last_frame _ _ _ _ H)|].
  split; [intros n; exact (place_last_sorted _ _ _ _ n H)|].
  intros _ c Hc. apply place_last_places in H as (_ & c' & Hc' & Hin).
  congruence.
Qed.

Lemma settles_trans (i : nat) st1 st2 st3 e3 :
  map frame (s_cs st2) = map frame (s_cs st1) ->
  (forall n, In n (s_sorted st1) -> In n (s_sorted st2)) ->
  settles i st2 st3 e3 ->
  settles i st1 st3 e3.
Proof.
  intros Hf Hs (Hf' & Hs' & Hp). split; [congruence|].
  split; [auto|].
  intros He c Hc.
  destruct (frame_lookup_name _ _ _ _ Hf Hc) as (c' & Hc' & <-).
  exact (Hp He c' Hc').
Qed.

Lemma place_after_settles self names i st st' e :
  (forall j s s' e', self j s = Ret (s', e') -> settles j s s' e') ->
  place_after self names i st = Ret (st', e) ->
  settles i st st' e.
Proof.
  intros Hself. unfold place_after.
  destruct (index (s_cs st) (Z.of_nat i)) as [c| |] eqn:Ei; cbn [bind];
    try discriminate.
  destruct (String.eqb (after c) ""); [apply place_last_settles|].
  cbv zeta.
  destruct (negb (getRIndex (s_sorted st) (after c) =? -1)).
  - destruct (getRIndex (s_sorted st) (name c) =? -1).
    + intros H. apply place_last_settles in H.
      eapply (settles_trans i st); [| |exact H]; cbn [s_cs s_sorted];
        [reflexivity|].
      intros n Hn. apply in_or_app. left. exact Hn.
    + destruct (getRIndex (s_sorted st) (name c) <?
                getRIndex (s_sorted st) (after c));
        [|apply place_last_settles].
      intros H; inversion H; subst.
      split; [reflexivity|]. split; [auto|]. discriminate.
  - destruct (negb (getRIndex names (after c) =? -1));
      [|apply place_last_settles].
    destruct (index (s_cs st) (getRIndex names (after c))) as [tgt| |] eqn:E;
      cbn [bind]; try discriminate.
    apply index_lookup in E as [_ E].
    set (st2 := if String.eqb (before tgt) "" then _ else _).
    assert (H2 : map frame (s_cs st2) = map frame (s_cs st)
                 /\ s_sorted st2 = s_sorted st).
    { subst st2. destruct (String.eqb (before tgt) ""); [|split; reflexivity].
      cbn [s_cs s_sorted]. split; [|reflexivity].
      apply (map_frame_insert _ _ _ tgt E). reflexivity. }
    destruct H2 as [Hf2 Hs2].
    destruct (self (Z.to_nat (getRIndex names (after c))) st2)
      as [[st3 err3]| |] eqn:E3; cbn [bind]; try discriminate.
    apply Hself in E3 as (Hf3 & Hs3 & _).
    destruct err3 as [e3|].
    { intros H; inversion H; subst.
      split; [congruence|]. split; [|discriminate].
      intros n Hn. apply Hs3. rewrite Hs2. exact Hn. }
    destruct (self i st3) as [[st4 err4]| |] eqn:E4; cbn [bind];
      try discriminate.
    apply Hself in E4 as (Hf4 & Hs4 & _).
    destruct err4 as [e4|].
    { intros H; inversion H; subst.
      split; [congruence|]. split; [|discriminate].
      intros n Hn. apply Hs4, Hs3. rewrite Hs2. exact Hn. }
    intros H. apply place_last_settles in H.
    eapply (settles_trans i st st4); [| |exact H]; [congruence|].
    intros n Hn. apply Hs4, Hs3. rewrite Hs2. exact Hn.
Qed.

Lemma sortCallback_settles (fuel : nat) :
  forall names i st st' e,
    sortCallback fuel names i st = Ret (st', e) -> settles i st st' e.
Proof.
  induction fuel as [|fuel IH]; intros names i st st' e; [discriminate|].
  rewrite sortCallback_unfold.
  destruct (place_before names i st) as [[st1 err]| |] eqn:E1; cbn [bind];
    try discriminate.
  pose proof (place_before_frame _ _ _ _ _ E1) as Hf1.
  pose proof (fun n => place_before_sorted _ _ _ _ _ n E1) as Hs1.
  destruct err as [e1|].
  { intros H; inversion H; subst. split; [exact Hf1|].
    split; [exact Hs1 | discriminate]. }
  intros H. apply place_after_settles in H;
    [|intros j s s' e'; apply IH].
  exact (settles_trans i st st1 st' e Hf1 Hs1 H).
Qed.

Lemma sort_all_settles (fuel : nat) names todo :
  forall st st' e,
    sort_all fuel names todo st = Ret (st', e) ->
    map frame (s_cs st') = map frame (s_cs st)
    /\ (forall n, In n (s_sorted st) -> In n (s_sorted st'))
    /\ (e = None ->
        forall i c, In i todo -> s_cs st !! i = Some c ->
                    In (name c) (s_sorted st')).
Proof.
  induction todo as [|i todo IH]; intros st st' e; cbn [sort_all].
  - intros H; inversion H; subst. split; [reflexivity|].
    split; [auto|]. intros _ i c [].
  - destruct (sortCallback fuel names i st) as [[st1 err]| |] eqn:E1;
      cbn [bind]; try discriminate.
    apply sortCallback_settles in E1 as (Hf1 & Hs1 & Hp1).
    destruct err as [e1|].
    { intros H; inversion H; subst. split; [exact Hf1|].
      split; [exact Hs1 | discriminate]. }
    intros H. apply IH in H as (Hf & Hs & Hp).
    split; [congruence|]. split; [auto|].
    intros He j c [<-|Hj] Hc.
    + apply Hs. exact (Hp1 eq_refl c Hc).
    + destruct (frame_lookup_name _ _ _ _ Hf1 Hc) as (c' & Hc' & <-).
      exact (Hp He j c' Hj Hc').
Qed.

(** ** Which handler a name contributes *)

Lemma scan_names_names cs rest :
  forall names warns names' warns',
    scan_names cs rest names warns = Ret (names', warns') ->
    names' = names ++ map name rest.
Proof.
  induction rest as [|c rest IH]; intros names warns names' warns';
    cbn [scan_names map].
  - intros H; inversion H. rewrite app_nil_r. reflexivity.
  - cbv zeta.
    match goal with
    | |- bind ?m _ = _ -> _ => destruct m as [w| |]
    end; cbn [bind]; try discriminate.
    intros H. apply IH in H. rewrite <- app_assoc in H. exact H.
Qed.

Lemma omap_cons {A B : Type} (f : A -> option B) (x : A) (l : list A) :
  omap f (x :: l) = match f x with
                    | Some y => y :: omap f l
                    | None => omap f l
                    end.
Proof. reflexivity. Qed.

Lemma omap_pointwise {A B : Type} (f g : A -> option B) (l : list A) :
  (forall x, f x = g x) -> omap f l = omap g l.
Proof.
  intros H. induction l as [|x l IH]; [reflexivity|].
  rewrite !omap_cons, H, IH. reflexivity.
Qed.

Lemma collect_live cs names sorted :
  forall acc out,
    collect cs names sorted acc = Ret out ->
    out = acc ++ omap (live names cs) sorted.
Proof.
  induction sorted as [|n sorted IH]; intros acc out; cbn [collect].
  - intros H; inversion H. rewrite app_nil_r. reflexivity.
  - rewrite omap_cons. unfold live at 1.
    destruct (index cs (getRIndex names n)) as [c| |]; cbn [bind];
      try discriminate.
    intros H. apply IH in H. subst out.
    destruct (remove c); cbn [negb]; [reflexivity|].
    rewrite <- app_assoc. reflexivity.
Qed.

Lemma live_frame names cs cs' n :
  map frame cs = map frame cs' -> live names cs n = live names cs' n.
Proof.
  intros Hf. unfold live, index.
  destruct (getRIndex names n <? 0); [reflexivity|].
  assert (H : (frame <$> cs) !! Z.to_nat (getRIndex names n)
              = (frame <$> cs') !! Z.to_nat (getRIndex names n))
    by (change (frame <$> cs) with (map frame cs); rewrite Hf; reflexivity).
  rewrite !list_lookup_fmap in H.
  destruct (cs !! _) as [c|], (cs' !! _) as [c'|]; cbn in H;
    try discriminate; [|reflexivity].
  inversion H as [[Hn Hr Hp Hm Hh]]. rewrite Hr, Hh. reflexivity.
Qed.

(** Whenever the resolver succeeds, the compiled list is read off a
    sequence of names that holds the name of every declaration, each name
    giving the handler of its last declaration in the input, or nothing
    when that one is a tombstone. *)
Lemma sortCallbacks_fns_live (fuel : nat) cs r :
  sortCallbacks fuel cs = Ret r -> r_err r = None ->
  exists sorted,
    (forall c, In c cs -> In (name c) sorted)
    /\ r_fns r = omap (live (map name cs) cs) sorted.
Proof.
  intros Hs. pose proof (sortCallbacks_frame _ _ _ Hs) as Hf. revert Hs.
  unfold sortCallbacks.
  destruct (scan_names cs cs [] []) as [[names warns]| |] eqn:En;
    cbn [bind]; try discriminate.
  apply scan_names_names in En. cbn [app] in En. subst names.
  destruct (sort_all fuel (map name cs) (seq 0 (length cs)) (mkSorter cs []))
    as [[st err]| |] eqn:E; cbn [bind]; try discriminate.
  destruct err as [e|]; [intros H; inversion H; subst; discriminate|].
  destruct (collect (s_cs st) (map name cs) (s_sorted st) []) as [out| |] eqn:Ec;
    cbn [bind]; try discriminate.
  intros H _. inversion H; subst; cbn [r_fns r_cs] in *.
  apply collect_live in Ec. cbn [app] in Ec. subst out.
  exists (s_sorted st). split.
  - apply sort_all_settles in E as (_ & _ & Hp). cbn [s_cs] in Hp.
    intros c Hc. apply list_elem_of_In, list_elem_of_lookup in Hc as [i Hi].
    apply (Hp eq_refl i c); [|exact Hi].
    apply in_seq. apply lookup_lt_Some in Hi. lia.
  - apply omap_pointwise. intros n. apply live_frame. exact Hf.
Qed.

(** ** getRIndex *)

Lemma getRIndex_from_bound (l : list string) (s : string) (k : nat) :
  -1 <= getRIndex_from l s k < Z.of_nat k \/ (k = 0%nat /\ getRIndex_from l s k = -1).
Proof.
  induction k as [|k IH]; [right; split; reflexivity|].
  left. cbn [getRIndex_from].
  destruct (l !! k) as [x|]; [destruct (String.eqb x s)|]; try lia.
Qed.

Lemma getRIndex_bound (l : list string) (s : string) :
  -1 <= getRIndex l s < Z.of_nat (length l) \/ getRIndex l s = -1.
Proof.
  unfold getRIndex.
  destruct (getRIndex_from_bound l s (length l)) as [H|[_ H]]; auto.
Qed.

(** Below the length of the prefix, the scan does not see what follows. *)
Lemma getRIndex_from_app (l l' : list string) (s : string) (k : nat) :
  (k <= length l)%nat ->
  getRIndex_from (l ++ l') s k = getRIndex_from l s k.
Proof.
  induction k as [|k IH]; intros Hk; [reflexivity|].
  cbn [getRIndex_from]. rewrite lookup_app_l by lia.
  rewrite IH by lia. reflexivity.
Qed.

Lemma getRIndex_snoc (l : list string) (s m : string) :
  getRIndex (l ++ [s]) m =
  if String.eqb s m then Z.of_nat (length l) else getRIndex l m.
Proof.
  unfold getRIndex. rewrite length_app, Nat.add_1_r.
  cbn [getRIndex_from]. rewrite list_lookup_middle by reflexivity.
  destruct (String.eqb s m); [reflexivity|].
  apply getRIndex_from_app. lia.
Qed.

Lemma index_app_l {A : Type} (l l' : list A) (idx : Z) :
  idx < Z.of_nat (length l) -> index (l ++ l') idx = index l idx.
Proof.
  intros H. unfold index. destruct (idx <? 0) eqn:E; [reflexivity|].
  apply Z.ltb_ge in E. rewrite lookup_app_l by lia. reflexivity.
Qed.

Lemma index_snoc {A : Type} (l : list A) (a : A) :
  index (l ++ [a]) (Z.of_nat (length l)) = Ret a.
Proof.
  unfold index. destruct (Z.of_nat (length l) <? 0) eqn:E;
    [apply Z.ltb_lt in E; lia|].
  rewrite Nat2Z.id, list_lookup_middle by reflexivity. reflexivity.
Qed.

(** The handler of a name once a declaration [c] is appended: [c] decides
    for its own name, nothing changes for the others. *)
Lemma live_snoc (cs : list callback) (c : callback) (m : string) :
  live (map name (cs ++ [c])) (cs ++ [c]) m =
  if String.eqb (name c) m
  then (if remove c then None else Some (handler c))
  else live (map name cs) cs m.
Proof.
  unfold live. rewrite map_app. cbn [map]. rewrite getRIndex_snoc.
  destruct (String.eqb (name c) m).
  - rewrite length_map, index_snoc. reflexivity.
  - destruct (getRIndex_bound (map name cs) m) as [H|H].
    + rewrite index_app_l by (rewrite length_map in H; lia). reflexivity.
    + rewrite H. reflexivity.
Qed.

(** ** Get *)

Lemma Get_from_frame (cs cs' : list callback) (n : string) (k : nat) :
  map frame cs = map frame cs' -> Get_from cs n k = Get_from cs' n k.
Proof.
  intros Hf. induction k as [|k IH]; [reflexivity|].
  cbn [Get_from]. rewrite IH.
  assert (H : (frame <$> cs) !! k = (frame <$> cs') !! k)
    by (change (frame <$> cs) with (map frame cs); rewrite Hf; reflexivity).
  rewrite !list_lookup_fmap in H.
  destruct (cs !! k) as [c|], (cs' !! k) as [c'|]; cbn in H;
    try discriminate; [|reflexivity].
  inversion H as [[Hn Hr Hp Hm Hh]]. rewrite Hn, Hr, Hh. reflexivity.
Qed.

Lemma Get_from_app (cs l : list callback) (n : string) (k : nat) :
  (k <= length cs)%nat -> Get_from (cs ++ l) n k = Get_from cs n k.
Proof.
  induction k as [|k IH]; intros Hk; [reflexivity|].
  cbn [Get_from]. rewrite lookup_app_l by lia. rewrite IH by lia.
  reflexivity.
Qed.

(** [Get] steps over a tombstone at the end of the declarations. *)
Lemma Get_from_tombstone (cs : list callback) (t : callback) (n : string) :
  remove t = true ->
  Get_from (cs ++ [t]) n (length (cs ++ [t])) = Get_from cs n (length cs).
Proof.
  intros Ht. rewrite length_app, Nat.add_1_r. cbn [Get_from].
  rewrite list_lookup_middle by reflexivity.
  rewrite Ht, andb_false_r. apply Get_from_app. lia.
Qed.

(** ** Remove *)

Lemma compile_frame (fuel : nat) p lg p' lg' err :
  compile fuel p lg = Ret (p', lg', err) ->
  map frame (callbacks p') = map frame (callbacks p).
Proof.
  intros H. apply compile_inv in H as (r & Hs & -> & _ & _).
  cbn [callbacks]. exact (sortCallbacks_frame _ _ _ Hs).
Qed.

Lemma compile_fns_live (fuel : nat) p lg p' lg' :
  compile fuel p lg = Ret (p', lg', None) ->
  exists sorted,
    (forall c, In c (callbacks p) -> In (name c) sorted)
    /\ fns p' = omap (live (map name (callbacks p)) (callbacks p)) sorted.
Proof.
  intros H. apply compile_inv in H as (r & Hs & -> & He & _).
  cbn [fns]. symmetry in He. exact (sortCallbacks_fns_live _ _ _ Hs He).
Qed.

(** C8, as the code has it, for the method [Remove] of the processor,
    which registers a declaration of its own: the removal appends a
    tombstone and rewrites no [remove] flag, name or handler of an earlier
    declaration; [Get], which steps over tombstones, answers for every
    name what it answered before the removal; and when the compile
    succeeds, the compiled list takes no handler for the removed name and
    the handler of the last declaration for every other name. *)
Theorem Remove_appends_tombstone (fuel : nat) (n : string)
    (p p' : processor) (lg lg' : list logentry) (err : option error) :
  Remove fuel n p lg = Ret (p', lg', err) ->
  map frame (callbacks p')
    = map frame (callbacks p)
      ++ [frame (set_remove true (set_name n new_callback))]
  /\ (forall m, Get p' m = Get p m)
  /\ (err = None ->
      exists sorted,
        In n sorted
        /\ fns p' = omap (fun m => if String.eqb n m then None
                                   else live (map name (callbacks p))
                                             (callbacks p) m) sorted).
Proof.
  unfold Remove, callback_Remove. intros H.
  set (t := set_remove true (set_name n new_callback)) in *.
  pose proof (compile_frame _ _ _ _ _ _ H) as Hf.
  cbn [append_callback callbacks] in Hf. rewrite map_app in Hf.
  cbn [map] in Hf. split; [exact Hf|]. split.
  - intros m. unfold Get.
    assert (Hf' : map frame (callbacks p') = map frame (callbacks p ++ [t]))
      by (rewrite Hf, map_app; reflexivity).
    assert (Hlen : length (callbacks p') = length (callbacks p ++ [t]))
      by (rewrite <- (length_map frame), Hf', length_map; reflexivity).
    rewrite Hlen, (Get_from_frame _ _ m _ Hf').
    apply Get_from_tombstone. reflexivity.
  - intros ->. apply compile_fns_live in H as (sorted & Hin & Hs).
    exists sorted. split.
    + apply (Hin t). cbn [append_callback callbacks].
      apply in_or_app. right. left. reflexivity.
    + rewrite Hs. apply omap_pointwise. intros m.
      cbn [append_callback callbacks]. rewrite live_snoc. reflexivity.
Qed.

Lemma Remove_appends_tombstone_witness :
  exists p' lg',
    Remove 1 "a" one_registered [] = Ret (p', lg', None)
    /\ (forall m, Get p' m = Get one_registered m)
    /\ fns p' = [].
Proof.
  eexists _, _. split; [reflexivity|].
  destruct (Remove_appends_tombstone 1 "a" one_registered
              _ [] _ None eq_refl) as (_ & HG & _).
  split; [exact HG | reflexivity].
Defined.

(** C8 as stated fails: after [Register("a", noop)] and [Remove("a")],
    [Get("a")] still returns the handler. *)
Lemma Get_after_Remove_returns_handler :
  exists p' lg',
    Remove 1 "a" one_registered [] = Ret (p', lg', None)
    /\ Get p' "a" = Some noop
    /\ Get p' "a" <> None.
Proof.
  eexists _, _. split; [reflexivity|]. split; [reflexivity|]. discriminate.
Qed.

(** ** Duplicate registrations *)

Lemma scan_names_snoc cs rest c :
  forall names warns,
    scan_names cs (rest ++ [c]) names warns =
    (do '(names', warns') <~ scan_names cs rest names warns ;
     scan_names cs [c] names' warns').
Proof.
  induction rest as [|x rest IH]; intros names warns.
  - reflexivity.
  - change ((x :: rest) ++ [c]) with (x :: (rest ++ [c])).
    cbn [scan_names]. cbv zeta.
    match goal with
    | |- bind ?m _ = _ => destruct m as [w| |]
    end; cbn [bind]; [apply IH | reflexivity | reflexivity].
Qed.

Lemma sortCallbacks_warns (fuel : nat) cs r :
  sortCallbacks fuel cs = Ret r ->
  exists names, scan_names cs cs [] [] = Ret (names, r_warns r).
Proof.
  unfold sortCallbacks.
  destruct (scan_names cs cs [] []) as [[names warns]| |]; cbn [bind];
    try discriminate.
  destruct (sort_all fuel names (seq 0 (length cs)) (mkSorter cs []))
    as [[st [e|]]| |]; cbn [bind]; try discriminate.
  - intros H; inversion H. exists names. reflexivity.
  - destruct (collect (s_cs st) names (s_sorted st) []); cbn [bind];
      try discriminate.
    intros H; inversion H. exists names. reflexivity.
Qed.

(** The first loop warns about a plain declaration whose name has a last
    earlier declaration that is not a tombstone. *)
Lemma scan_names_duplicate cs c prev names warns :
  replace c = false -> remove c = false ->
  index cs (getRIndex (map name cs) (name c)) = Ret prev ->
  remove prev = false ->
  scan_names (cs ++ [c]) (cs ++ [c]) [] [] = Ret (names, warns) ->
  In (WarnDuplicated (name c)) warns.
Proof.
  intros Hrep Hrem Hprev Hlive. rewrite scan_names_snoc.
  destruct (scan_names (cs ++ [c]) cs [] []) as [[n1 w1]| |] eqn:E1;
    cbn [bind]; try discriminate.
  apply scan_names_names in E1. cbn [app] in E1. subst n1.
  cbn [scan_names]. cbv zeta.
  pose proof (index_lookup _ _ _ Hprev) as [H0 Hl].
  apply lookup_lt_Some in Hl.
  replace (getRIndex (map name cs) (name c) >? -1) with true
    by (symmetry; apply Z.gtb_lt; lia).
  rewrite Hrep, Hrem. cbn [negb andb].
  rewrite index_app_l by lia. rewrite Hprev. cbn [bind]. rewrite Hlive.
  cbn [negb]. intros H; inversion H; subst.
  apply in_or_app. right. left. reflexivity.
Qed.

Lemma getRIndex_from_found (l : list string) (s : string) (i k : nat) :
  l !! i = Some s -> (i < k)%nat -> Z.of_nat i <= getRIndex_from l s k.
Proof.
  intros Hi. induction k as [|k IH]; intros Hk; [lia|].
  cbn [getRIndex_from].
  destruct (decide (i = k)) as [->|Hne].
  - rewrite Hi, String.eqb_refl. lia.
  - destruct (l !! k) as [x|]; [destruct (String.eqb x s)|];
      try (apply IH; lia). lia.
Qed.

Lemma getRIndex_found (l : list string) (s : string) :
  In s l -> 0 <= getRIndex l s < Z.of_nat (length l).
Proof.
  intros Hin. apply list_elem_of_In, list_elem_of_lookup in Hin as [i Hi].
  pose proof (lookup_lt_Some _ _ _ Hi) as Hlt.
  pose proof (getRIndex_from_found l s i (length l) Hi Hlt) as Hge.
  fold (getRIndex l s) in Hge.
  destruct (getRIndex_bound l s) as [H|H]; lia.
Qed.

Lemma index_total {A : Type} (l : list A) (idx : Z) :
  0 <= idx < Z.of_nat (length l) -> exists a, index l idx = Ret a.
Proof.
  intros H. unfold index.
  destruct (idx <? 0) eqn:E; [apply Z.ltb_lt in E; lia|].
  destruct (l !! Z.to_nat idx) as [a|] eqn:El; [exists a; reflexivity|].
  apply lookup_ge_None in El. lia.
Qed.

Lemma index_of_nat {A : Type} (l : list A) (i : nat) (a : A) :
  l !! i = Some a -> index l (Z.of_nat i) = Ret a.
Proof.
  intros H. unfold index.
  destruct (Z.of_nat i <? 0) eqn:E; [apply Z.ltb_lt in E; lia|].
  rewrite Nat2Z.id, H. reflexivity.
Qed.

(** The first loop never indexes out of range. *)
Lemma scan_names_total cs rest :
  forall names warns,
    (length names + length rest <= length cs)%nat ->
    exists out, scan_names cs rest names warns = Ret out.
Proof.
  induction rest as [|c rest IH]; intros names warns Hlen.
  - eexists; reflexivity.
  - cbn [scan_names length] in *. cbv zeta.
    assert (Hw : exists w,
      (if getRIndex names (name c) >? -1
       then if negb (replace c) && negb (remove c)
            then do prev <~ index cs (getRIndex names (name c)) ;
                 Ret (if negb (remove prev)
                      then warns ++ [WarnDuplicated (name c)] else warns)
            else Ret warns
       else Ret warns) = Ret w).
    { destruct (getRIndex names (name c) >? -1) eqn:E;
        [|eexists; reflexivity].
      destruct (negb (replace c) && negb (remove c));
        [|eexists; reflexivity].
      apply Z.gtb_lt in E.
      destruct (getRIndex_bound names (name c)) as [B|B]; [|lia].
      destruct (index_total cs (getRIndex names (name c))) as [prev Hp];
        [lia|].
      rewrite Hp. cbn [bind]. eexists; reflexivity. }
    destruct Hw as [w ->]. cbn [bind]. apply IH.
    rewrite length_app. cbn [length]. lia.
Qed.

Lemma sortCallback_unconstrained (fuel : nat) names i st c :
  s_cs st !! i = Some c -> unconstrained c ->
  sortCallback (S fuel) names i st
  = Ret (mkSorter (s_cs st)
           (if getRIndex (s_sorted st) (name c) =? -1
            then s_sorted st ++ [name c] else s_sorted st), None).
Proof.
  intros Hi [Hb Ha]. rewrite sortCallback_unfold.
  unfold place_before. rewrite (index_of_nat _ _ _ Hi). cbn [bind].
  rewrite Hb. cbn [String.eqb bind].
  unfold place_after. rewrite (index_of_nat _ _ _ Hi). cbn [bind].
  rewrite Ha. cbn [String.eqb].
  unfold place_last. rewrite (index_of_nat _ _ _ Hi). cbn [bind].
  destruct (getRIndex (s_sorted st) (name c) =? -1); [reflexivity|].
  destruct st; reflexivity.
Qed.

Lemma sort_all_unconstrained (fuel : nat) names cs todo :
  Forall unconstrained cs ->
  Forall (fun i => (i < length cs)%nat) todo ->
  forall sorted,
    Forall (fun n => In n (map name cs)) sorted ->
    exists sorted',
      sort_all (S fuel) names todo (mkSorter cs sorted)
        = Ret (mkSorter cs sorted', None)
      /\ Forall (fun n => In n (map name cs)) sorted'.
Proof.
  intros Hu. induction todo as [|i todo IH]; intros Htodo sorted Hs.
  - exists sorted. split; [reflexivity | exact Hs].
  - apply Forall_cons in Htodo as [Hi Htodo].
    destruct (lookup_lt_is_Some_2 cs i Hi) as [c Hc].
    cbn [sort_all].
    rewrite (sortCallback_unconstrained fuel names i (mkSorter cs sorted) c Hc)
      by (exact (proj1 (Forall_lookup _ _) Hu i c Hc)).
    cbn [bind s_cs s_sorted]. apply IH; [exact Htodo|].
    destruct (getRIndex sorted (name c) =? -1); [|exact Hs].
    apply Forall_app. split; [exact Hs|].
    apply Forall_singleton, in_map, list_elem_of_In.
    apply (list_elem_of_lookup_2 _ _ _ Hc).
Qed.

Lemma collect_total cs sorted :
  Forall (fun n => In n (map name cs)) sorted ->
  forall acc, exists out, collect cs (map name cs) sorted acc = Ret out.
Proof.
  induction 1 as [|n sorted Hn _ IH]; intros acc.
  - eexists; reflexivity.
  - cbn [collect]. apply getRIndex_found in Hn. rewrite length_map in Hn.
    destruct (index_total cs _ Hn) as [c ->]. cbn [bind]. apply IH.
Qed.

(** Declarations without constraints always compile, without recursion and
    without error. *)
Lemma sortCallbacks_unconstrained (fuel : nat) cs :
  Forall unconstrained cs ->
  exists r, sortCallbacks (S fuel) cs = Ret r /\ r_err r = None.
Proof.
  intros Hu. unfold sortCallbacks.
  destruct (scan_names_total cs cs [] []) as [[names warns] Hn];
    [cbn [length]; lia|].
  rewrite Hn. cbn [bind].
  pose proof (scan_names_names _ _ _ _ _ _ Hn) as ->. cbn [app].
  destruct (sort_all_unconstrained fuel (map name cs) cs (seq 0 (length cs)) Hu)
    with (sorted := @nil string) as (sorted' & -> & Hs').
  - apply Forall_seq. intros j Hj. lia.
  - constructor.
  - cbn [bind s_cs s_sorted].
    destruct (collect_total cs sorted' Hs' []) as [out ->]. cbn [bind].
    eexists. split; reflexivity.
Qed.

(** C6, as the code has it: registering again, without the replace flag, a
    name whose last declaration is not a tombstone logs the duplicate
    warning; when the compile succeeds, the compiled list is read off a
    sequence of names that holds the name, and the name gives the handler
    of the new registration, every other name the handler it gave before;
    and on a processor whose declarations carry no constraints the
    registration returns without error. *)
Theorem Register_duplicate_newest_wins (fuel : nat) (n : string)
    (h : option Handler) (p : processor) (lg : list logentry)
    (prev : callback) :
  index (callbacks p) (getRIndex (map name (callbacks p)) n) = Ret prev ->
  remove prev = false ->
  (forall p' lg' err,
     Register fuel n h p lg = Ret (p', lg', err) ->
     In (WarnDuplicated n) lg'
     /\ (err = None ->
         exists sorted,
           In n sorted
           /\ fns p' = omap (fun m => if String.eqb n m then Some h
                                      else live (map name (callbacks p))
                                                (callbacks p) m) sorted))
  /\ (Forall unconstrained (callbacks p) ->
      exists p' lg', Register (S fuel) n h p lg = Ret (p', lg', None)).
Proof.
  intros Hprev Hlive.
  set (c := set_handler h (set_name n new_callback)).
  split.
  - intros p' lg' err H. unfold Register, callback_Register in H.
    fold c in H. split.
    + apply compile_inv in H as (r & Hs & _ & _ & ->).
      cbn [append_callback callbacks] in Hs.
      apply sortCallbacks_warns in Hs as [names Hn].
      apply in_or_app. right. apply in_or_app. left.
      apply (scan_names_duplicate (callbacks p) c prev names);
        [reflexivity | reflexivity | exact Hprev | exact Hlive | exact Hn].
    + intros ->. apply compile_fns_live in H as (sorted & Hin & Hs).
      exists sorted. split.
      * apply (Hin c). cbn [append_callback callbacks].
        apply in_or_app. right. left. reflexivity.
      * rewrite Hs. apply omap_pointwise. intros m.
        cbn [append_callback callbacks]. rewrite live_snoc. reflexivity.
  - intros Hu. unfold Register, callback_Register, compile. fold c.
    destruct (sortCallbacks_unconstrained fuel (callbacks (append_callback c p)))
      as (r & Hr & He).
    + cbn [append_callback callbacks]. apply Forall_app. split; [exact Hu|].
      apply Forall_singleton. split; reflexivity.
    + rewrite Hr. cbn [bind]. rewrite He. eexists _, _. reflexivity.
Qed.

Lemma Register_duplicate_newest_wins_witness :
  exists p' lg',
    Register 1 "a" (Some count_row) one_registered [] = Ret (p', lg', None)
    /\ In (WarnDuplicated "a") lg'
    /\ fns p' = [Some count_row].
Proof.
  eexists _, _. split; [reflexivity|].
  destruct (Register_duplicate_newest_wins 1 "a" (Some count_row)
              one_registered [] (decl "a" "" "" (Some noop))
              eq_refl eq_refl) as [H _].
  destruct (H _ _ None eq_refl) as [Hw _].
  split; [exact Hw | reflexivity].
Defined.

Lemma count_row_not_noop : Some count_row <> Some noop.
Proof.
  intros H. inversion H as [Hf].
  apply (f_equal (fun f => RowsAffected (f empty_db))) in Hf.
  cbv in Hf. discriminate.
Qed.

(** C6 as stated fails: after [Register("a", noop)] and
    [Register("a", count_row)], the compiled list holds [count_row], the
    handler of the newer registration, and not [noop]. *)
Lemma Register_duplicate_replaces_handler :
  exists p' lg',
    Register 1 "a" (Some count_row) one_registered [] = Ret (p', lg', None)
    /\ fns one_registered = [Some noop]
    /\ fns p' <> [Some noop].
Proof.
  eexists _, _. split; [reflexivity|]. split; [reflexivity|].
  cbn [fns]. intros H. apply count_row_not_noop.
  inversion H as [Hf]. rewrite Hf. reflexivity.
Qed.

(** ** The rewrite of [after] by a [before] constraint *)

(** C7: when the declaration at [i] names in [before] a declaration that
    is not placed yet, the closure writes the name of [i] into the [after]
    field of that declaration, whatever the field held. *)
Theorem place_before_overwrites_after (names : list string) (i : nat)
    (st : sorter) (c tgt : callback) :
  index (s_cs st) (Z.of_nat i) = Ret c ->
  before c <> "" ->
  getRIndex (s_sorted st) (before c) = -1 ->
  getRIndex names (before c) <> -1 ->
  index (s_cs st) (getRIndex names (before c)) = Ret tgt ->
  place_before names i st
  = Ret (mkSorter
           (<[Z.to_nat (getRIndex names (before c))
              := set_after (name c) tgt]> (s_cs st))
           (s_sorted st), None).
Proof.
  intros Hc Hb Hs Hn Ht. unfold place_before. rewrite Hc. cbn [bind].
  apply String.eqb_neq in Hb. rewrite Hb, Hs. cbn [Z.eqb negb].
  apply Z.eqb_neq in Hn. rewrite Hn. cbn [negb]. rewrite Ht. reflexivity.
Qed.

Lemma place_before_overwrites_after_witness :
  place_before ["a"; "b"; "c"] 0
    (mkSorter (before_meets_after (Some noop) (Some noop) (Some noop)) [])
  = Ret (mkSorter
           [ decl "a" "b" "" (Some noop); decl "b" "" "a" (Some noop);
             decl "c" "" "" (Some noop) ]
           [], None).
Proof.
  apply (place_before_overwrites_after ["a"; "b"; "c"] 0
           (mkSorter (before_meets_after (Some noop) (Some noop) (Some noop)) [])
           (decl "a" "b" "" (Some noop)) (decl "b" "" "c" (Some noop))).
  - reflexivity.
  - discriminate.
  - reflexivity.
  - discriminate.
  - reflexivity.
Defined.

(** C4, at [a] before [b], [b] after [c], [c]: the resolver succeeds, and
    the handler of [b] precedes the handler of [c] in the compiled list
    although [b] was declared to run after [c]; the declaration of [b]
    comes back with [after] rewritten to [a]. *)
Theorem sortCallbacks_loses_after (ha hb hc : option Handler) (fuel : nat) :
  sortCallbacks (1 + fuel) (before_meets_after ha hb hc)
  = Ret (mkSorted
           [ decl "a" "b" "" ha; decl "b" "" "a" hb; decl "c" "" "" hc ]
           [] [ha; hb; hc] None).
Proof.
  rewrite Nat.add_comm. apply sortCallbacks_fuel_mono. reflexivity.
Qed.

(** ** Compiling twice *)

(** C9, at the declarations of four registrations: a first compile gives
    the handlers in the order [c], [d], [a], [b] and rewrites [after] of
    [a] and of [b]; compiling the processor again, with no declaration
    added, gives the order [c], [a], [d], [b]. *)
Theorem compile_twice_differs (d : DB) (ha hb hc hd : option Handler)
    (fuel : nat) :
  compile (3 + fuel) (four_declared d ha hb hc hd) []
    = Ret (four_compiled d ha hb hc hd, [], None)
  /\ compile (3 + fuel) (four_compiled d ha hb hc hd) []
    = Ret (four_recompiled d ha hb hc hd, [], None)
  /\ fns (four_compiled d ha hb hc hd) = [hc; hd; ha; hb]
  /\ fns (four_recompiled d ha hb hc hd) = [hc; ha; hd; hb]
  /\ callbacks (four_recompiled d ha hb hc hd)
     = callbacks (four_compiled d ha hb hc hd).
Proof.
  split; [|split; [|repeat split]].
  - rewrite Nat.add_comm. apply compile_fuel_mono.
    vm_compute. reflexivity.
  - rewrite Nat.add_comm. apply compile_fuel_mono.
    vm_compute. reflexivity.
Qed.

(** The processor [four_declared] is the one the fourth of the
    registrations compiles. *)
Lemma four_declared_reached (d : DB) (ha hb hc hd : option Handler)
    (fuel : nat) :
  (do '(p1, lg1, _) <~ callback_Register 3 (After "d") "a" ha (new_processor d) [] ;
   do '(p2, lg2, _) <~ Register 3 "b" hb p1 lg1 ;
   do '(p3, lg3, _) <~ callback_Register 3 (Before "a") "c" hc p2 lg2 ;
   callback_Register fuel (callback_After "c" (Before "b")) "d" hd p3 lg3)
  = compile fuel (four_declared d ha hb hc hd) [].
Proof.
  replace (callback_Register 3 (After "d") "a" ha (new_processor d) [])
    with (Ret (mkProcessor d [ha] [decl "a" "" "d" ha],
               @nil logentry, @None error))
    by (vm_compute; reflexivity).
  cbn [bind].
  replace (Register 3 "b" hb (mkProcessor d [ha] [decl "a" "" "d" ha]) [])
    with (Ret (mkProcessor d [ha; hb]
                 [decl "a" "" "d" ha; decl "b" "" "" hb],
               @nil logentry, @None error))
    by (vm_compute; reflexivity).
  cbn [bind].
  replace (callback_Register 3 (Before "a") "c" hc
             (mkProcessor d [ha; hb]
                [decl "a" "" "d" ha; decl "b" "" "" hb]) [])
    with (Ret (mkProcessor d [hc; ha; hb]
                 [decl "a" "" "d" ha; decl "b" "" "" hb;
                  decl "c" "a" "" hc],
               @nil logentry, @None error))
    by (vm_compute; reflexivity).
  cbn [bind]. reflexivity.
Qed.

(** ** Execute *)

(** C5, as the code has it: a parse error reaches [AddError] when it is
    not an unsupported-data-type error, whatever the table name, and when
    it is one and the table name is empty; only an unsupported-data-type
    error with a table name known is kept from it. *)
Theorem parse_error_surfacing
    (Parse : Statement -> value -> Statement * option error)
    (AddError : DB -> error -> DB)
    (d : DB) (stmt0 stmt' : Statement) (m : value) (e : error) :
  Statement_ d = Some stmt0 ->
  Model (default_model stmt0) = Some m ->
  Parse (default_model stmt0) m = (stmt', Some e) ->
  let d' := set_Statement (Some stmt') d in
  (errors_Is e ErrUnsupportedDataType = false ->
   prepare Parse AddError d = reflect_dest (AddError d' e))
  /\ (errors_Is e ErrUnsupportedDataType = true -> Table stmt' = "" ->
      prepare Parse AddError d = reflect_dest (AddError d' e))
  /\ (errors_Is e ErrUnsupportedDataType = true -> Table stmt' <> "" ->
      prepare Parse AddError d = reflect_dest d').
Proof.
  intros Hd Hm Hp d'. unfold prepare, parse_model, surfaces.
  rewrite Hd, Hm, Hp. subst d'. repeat split.
  - intros ->. reflexivity.
  - intros -> ->. reflexivity.
  - intros -> Ht. apply String.eqb_neq in Ht. rewrite Ht. reflexivity.
Qed.

Lemma parse_error_surfacing_witness :
  prepare parse_rejects keep_error users_db
  = reflect_dest (keep_error (set_Statement (Some users_stmt) users_db)
                    invalid_model).
Proof.
  destruct (parse_error_surfacing parse_rejects keep_error users_db
              users_stmt users_stmt (VStruct "User") invalid_model
              eq_refl eq_refl eq_refl) as [H _].
  apply H. reflexivity.
Defined.

(** C5 as stated fails: the table name [users] is known and the parse
    error is not an unsupported-data-type error, yet the error is handed
    to the accumulator. *)
Lemma parse_error_added_with_table :
  Table users_stmt = "users"
  /\ errors_Is invalid_model ErrUnsupportedDataType = false
  /\ Error (prepare parse_rejects keep_error users_db) = Some invalid_model
  /\ prepare parse_rejects keep_error users_db
     <> reflect_dest (set_Statement (Some users_stmt) users_db).
Proof.
  repeat split. cbv. discriminate.
Qed.

Lemma run_handlers_all (hs : list Handler) :
  forall d, run_handlers (map Some hs) d = Ret (fold_left (fun x h => h x) hs d).
Proof.
  induction hs as [|h hs IH]; intros d; [reflexivity|].
  cbn [map run_handlers fold_left]. apply IH.
Qed.

Lemma run_handlers_until_nil (hs : list Handler)
    (rest : list (option Handler)) :
  forall d, run_handlers (map Some hs ++ None :: rest) d = Panic.
Proof.
  induction hs as [|h hs IH]; intros d; [reflexivity|].
  cbn [map app run_handlers]. apply IH.
Qed.

(** C10, as the code has it: with no statement at entry, [Execute] does no
    defaulting and no parsing; it calls the compiled handlers in their
    order, the first on the call as it came and each next one on what the
    one before left, and panics at the first nil handler; the statement is
    looked up again once the handlers have run, and when there is still
    none, the result of [Execute] is what the last handler left: nothing
    is copied and no trace is written. *)
Theorem Execute_nil_Statement
    (Parse : Statement -> value -> Statement * option error)
    (AddError : DB -> error -> DB)
    (Explain : string -> list value -> string)
    (p : processor) (curTime : Z) (d : DB) (hs : list Handler) :
  Statement_ d = None ->
  prepare Parse AddError d = d
  /\ (fns p = map Some hs ->
      let d' := fold_left (fun x h => h x) hs d in
      Execute Parse AddError Explain p curTime d
        = Ret (finish Explain curTime d')
      /\ (Statement_ d' = None ->
          Execute Parse AddError Explain p curTime d = Ret d'))
  /\ (forall rest, fns p = map Some hs ++ None :: rest ->
      Execute Parse AddError Explain p curTime d = Panic).
Proof.
  intros Hd.
  assert (Hp : prepare Parse AddError d = d)
    by (unfold prepare; rewrite Hd; reflexivity).
  split; [exact Hp|]. unfold Execute. rewrite Hp. split.
  - intros Hf. cbv zeta. rewrite Hf, run_handlers_all. cbn [bind].
    split; [reflexivity|]. intros Hd'. unfold finish. rewrite Hd'.
    reflexivity.
  - intros rest Hf. rewrite Hf, run_handlers_until_nil. reflexivity.
Qed.

Lemma Execute_nil_Statement_witness :
  Execute parse_rejects keep_error explain_sql twice_counted 0 empty_db
  = Ret (mkDB None None 2 []).
Proof.
  destruct (Execute_nil_Statement parse_rejects keep_error explain_sql
              twice_counted 0 empty_db [count_row; count_row] eq_refl)
    as (_ & H & _).
  destruct (H eq_refl) as [_ H']. apply H'. reflexivity.
Defined.

(** C10 as stated fails: the call has no statement at entry, the only
    compiled handler installs one, and [Execute] then copies its error and
    its rows-affected count and writes a trace record. *)
Lemma Execute_nil_Statement_then_installed :
  Statement_ empty_db = None
  /\ Execute parse_rejects keep_error explain_sql
       (mkProcessor empty_db [Some install_statement] []) 5 empty_db
     = Ret (mkDB (Some late_stmt) (Some (ErrorfMsg "late")) 7
              [mkTrace 5 "SELECT 1" 7 (Some (ErrorfMsg "late"))]).
Proof.
  split; reflexivity.
Qed.

(** * Further properties of the code *)

(** ** getRIndex *)

Lemma getRIndex_from_spec (l : list string) (s : string) (k : nat) :
  (getRIndex_from l s k = -1 ->
   forall j, (j < k)%nat -> l !! j <> Some s)
  /\ (forall i, getRIndex_from l s k = Z.of_nat i ->
      l !! i = Some s /\ (i < k)%nat
      /\ forall j, (i < j < k)%nat -> l !! j <> Some s).
Proof.
  induction k as [|k [IHn IHi]]; cbn [getRIndex_from].
  - split; [intros _ j Hj; lia | intros i Hi; lia].
  - destruct (l !! k) as [x|] eqn:Ek.
    + destruct (String.eqb x s) eqn:Ex.
      * apply String.eqb_eq in Ex. subst x. split; [lia|].
        intros i Hi. apply Nat2Z.inj in Hi. subst i.
        split; [exact Ek|]. split; [lia|]. intros j Hj. lia.
      * apply String.eqb_neq in Ex. split.
        -- intros H j Hj. destruct (decide (j = k)) as [->|Hne];
             [rewrite Ek; congruence | apply IHn; [exact H | lia]].
        -- intros i Hi. destruct (IHi i Hi) as (H1 & H2 & H3).
           split; [exact H1|]. split; [lia|]. intros j Hj.
           destruct (decide (j = k)) as [->|Hne];
             [rewrite Ek; congruence | apply H3; lia].
    + split.
      * intros H j Hj. destruct (decide (j = k)) as [->|Hne];
          [rewrite Ek; discriminate | apply IHn; [exact H | lia]].
      * intros i Hi. destruct (IHi i Hi) as (H1 & H2 & H3).
        split; [exact H1|]. split; [lia|]. intros j Hj.
        destruct (decide (j = k)) as [->|Hne];
          [rewrite Ek; discriminate | apply H3; lia].
Qed.

Lemma getRIndex_none_iff (l : list string) (s : string) :
  getRIndex l s = -1 <-> ~ In s l.
Proof.
  destruct (getRIndex_from_spec l s (length l)) as [Hn _].
  fold (getRIndex l s) in Hn. split.
  - intros H Hin.
    apply list_elem_of_In, list_elem_of_lookup in Hin as [j Hj].
    exact (Hn H j (lookup_lt_Some _ _ _ Hj) Hj).
  - intros Hnot. destruct (Z.eq_dec (getRIndex l s) (-1)) as [E|E];
      [exact E|]. exfalso. apply Hnot. exact (getRIndex_in l s E).
Qed.

Lemma getRIndex_last (l : list string) (s : string) (i : nat) :
  getRIndex l s = Z.of_nat i ->
  l !! i = Some s /\ forall j, (i < j)%nat -> l !! j <> Some s.
Proof.
  destruct (getRIndex_from_spec l s (length l)) as [_ Hi].
  fold (getRIndex l s) in Hi.
  intros H. destruct (Hi i H) as (H1 & _ & H3). split; [exact H1|].
  intros j Hj. destruct (decide (j < length l)%nat) as [Hlt|Hge].
  - apply H3. lia.
  - rewrite (proj2 (lookup_ge_None l j)) by lia. discriminate.
Qed.

(** X1: [getRIndex] returns -1 exactly when the string does not occur;
    when it occurs, the result is an index of the slice, the string is at
    that index, and it is at no later index. *)
Theorem getRIndex_rightmost (l : list string) (s : string) :
  (getRIndex l s = -1 <-> ~ In s l)
  /\ (In s l ->
      exists i, getRIndex l s = Z.of_nat i
                /\ (i < length l)%nat
                /\ l !! i = Some s
                /\ forall j, (i < j)%nat -> l !! j <> Some s).
Proof.
  split; [apply getRIndex_none_iff|]. intros Hin.
  pose proof (getRIndex_found l s Hin) as Hb.
  exists (Z.to_nat (getRIndex l s)).
  assert (E : getRIndex l s = Z.of_nat (Z.to_nat (getRIndex l s)))
    by (rewrite Z2Nat.id; lia).
  split; [exact E|]. split; [lia|].
  exact (getRIndex_last l s _ E).
Qed.

(** ** Get *)

(** X2: [Get] returns the handler of the last declaration that carries the
    name and is not a tombstone, and nil when there is none. *)
Theorem Get_last_answer (p : processor) (n : string) :
  Get p n = match last (List.filter (answers n) (callbacks p)) with
            | Some v => handler v
            | None => None
            end.
Proof.
  unfold Get. induction (callbacks p) as [|x l IH] using rev_ind;
    [reflexivity|].
  rewrite List.filter_app, length_app, Nat.add_1_r. cbn [Get_from List.filter].
  rewrite list_lookup_middle by reflexivity. fold (answers n x).
  destruct (answers n x).
  - rewrite last_snoc. reflexivity.
  - rewrite app_nil_r, Get_from_app by lia. exact IH.
Qed.

Lemma Get_from_snoc (cs : list callback) (c : callback) (k : string) :
  Get_from (cs ++ [c]) k (length (cs ++ [c]))
  = if answers k c then handler c else Get_from cs k (length cs).
Proof.
  rewrite length_app, Nat.add_1_r. cbn [Get_from].
  rewrite list_lookup_middle by reflexivity. fold (answers k c).
  destruct (answers k c); [reflexivity|]. apply Get_from_app. lia.
Qed.

(** Appending one declaration and compiling: [Get] answers with its
    handler for its name unless it is a tombstone, and as before
    otherwise. *)
Lemma Get_after_append (fuel : nat) (c : callback) (p p' : processor)
    (lg lg' : list logentry) (err : option error) (k : string) :
  compile fuel (append_callback c p) lg = Ret (p', lg', err) ->
  Get p' k = if answers k c then handler c else Get p k.
Proof.
  intros Hc. apply compile_frame in Hc.
  cbn [append_callback callbacks] in Hc.
  assert (Hlen : length (callbacks p') = length (callbacks p ++ [c]))
    by (rewrite <- (length_map frame), Hc, length_map; reflexivity).
  unfold Get. rewrite Hlen, (Get_from_frame _ _ k _ Hc).
  apply Get_from_snoc.
Qed.

(** X3: for the methods of the processor, which register a declaration
    of their own: after a [Register] or a [Replace] that returns, with or
    without an error, [Get] answers with the new handler for the name
    given and as before for every other name; after a [Remove] that
    returns, [Get] answers as before for every name. *)
Theorem Get_after_processor_method (fuel : nat) (n k : string)
    (fn : option Handler) (p p' : processor) (lg lg' : list logentry)
    (err : option error) :
  (Register fuel n fn p lg = Ret (p', lg', err) ->
   Get p' k = if String.eqb n k then fn else Get p k)
  /\ (Replace fuel n fn p lg = Ret (p', lg', err) ->
      Get p' k = if String.eqb n k then fn else Get p k)
  /\ (Remove fuel n p lg = Ret (p', lg', err) ->
      Get p' k = Get p k).
Proof.
  unfold Register, Replace, Remove, callback_Register, callback_Replace,
    callback_Remove.
  split; [|split]; intros H; rewrite (Get_after_append _ _ _ _ _ _ _ k H);
    unfold answers; cbn [name remove handler set_name set_handler
                         set_replace set_remove new_callback negb];
    rewrite ?andb_true_r, ?andb_false_r; reflexivity.
Qed.

Lemma Get_after_processor_method_witness :
  Replace 1 "a" (Some count_row) one_registered []
    = Ret (replaced_a, [InfoReplacing "a"], None)
  /\ Get replaced_a "a" = Some count_row.
Proof.
  assert (H : Replace 1 "a" (Some count_row) one_registered []
              = Ret (replaced_a, [InfoReplacing "a"], None))
    by (vm_compute; reflexivity).
  split; [exact H|].
  destruct (Get_after_processor_method 1 "a" "a" (Some count_row)
              one_registered replaced_a [] [InfoReplacing "a"] None)
    as (_ & HR & _).
  exact (HR H).
Defined.

(** ** Execute *)

Lemma run_handlers_nil (hs : list (option Handler)) :
  In None hs -> forall d, run_handlers hs d = Panic.
Proof.
  induction hs as [|[f|] hs IH]; intros Hin d; cbn [run_handlers].
  - destruct Hin.
  - destruct Hin as [Hf|Hin]; [discriminate | apply IH; exact Hin].
  - reflexivity.
Qed.

(** X4: a nil function value anywhere in the compiled list makes [Execute]
    panic, whatever the call and whatever the other handlers do. *)
Theorem Execute_nil_handler_panics
    (Parse : Statement -> value -> Statement * option error)
    (AddError : DB -> error -> DB)
    (Explain : string -> list value -> string)
    (p : processor) (curTime : Z) (d : DB) :
  In None (fns p) ->
  Execute Parse AddError Explain p curTime d = Panic.
Proof.
  intros Hin. unfold Execute. rewrite (run_handlers_nil _ Hin). reflexivity.
Qed.

Lemma Execute_nil_handler_panics_witness :
  Execute parse_rejects keep_error explain_sql
    (mkProcessor empty_db [Some noop; None] []) 0 users_db = Panic.
Proof.
  apply Execute_nil_handler_panics. cbn [fns]. right. left. reflexivity.
Defined.

(** ** The resolver never indexes out of range *)

Lemma NoDup_insert_at (l : list string) (k : nat) (x : string) :
  NoDup l -> ~ In x l -> NoDup (take k l ++ [x] ++ drop k l).
Proof.
  intros Hl Hx.
  assert (P : take k l ++ [x] ++ drop k l ≡ₚ x :: l).
  { cbn [app]. rewrite <- Permutation_middle, take_drop. reflexivity. }
  rewrite P. apply NoDup_cons_2; [|exact Hl].
  intros H. apply Hx, list_elem_of_In, H.
Qed.

Lemma NoDup_snoc_new (l : list string) (x : string) :
  NoDup l -> ~ In x l -> NoDup (l ++ [x]).
Proof.
  intros Hl Hx. rewrite <- Permutation_cons_append.
  apply NoDup_cons_2; [|exact Hl].
  intros H. apply Hx, list_elem_of_In, H.
Qed.

Lemma In_insert_at_inv (l : list string) (k : nat) (x n : string) :
  In n (take k l ++ [x] ++ drop k l) -> n = x \/ In n l.
Proof.
  intros H. apply in_app_or in H as [H|H].
  - right. rewrite <- (take_drop k l). apply in_or_app. left. exact H.
  - apply in_app_or in H as [[H|[]]|H]; [left; congruence|].
    right. rewrite <- (take_drop k l). apply in_or_app. right. exact H.
Qed.

Lemma getRIndex_absent (l : list string) (s : string) :
  getRIndex l s = -1 -> ~ In s l.
Proof. apply getRIndex_none_iff. Qed.

Lemma well_placed_lookup names st i :
  well_placed names st -> (i < length names)%nat ->
  exists c, s_cs st !! i = Some c
            /\ index (s_cs st) (Z.of_nat i) = Ret c
            /\ In (name c) names.
Proof.
  intros (Hn & _ & _) Hi.
  assert (Hlen : length names = length (s_cs st))
    by (rewrite <- Hn, length_map; reflexivity).
  rewrite Hlen in Hi.
  destruct (lookup_lt_is_Some_2 _ _ Hi) as [c Hc].
  exists c. split; [exact Hc|]. split; [exact (index_of_nat _ _ _ Hc)|].
  rewrite <- Hn. apply in_map, list_elem_of_In.
  exact (list_elem_of_lookup_2 _ _ _ Hc).
Qed.

Lemma well_placed_target names st (s : string) :
  well_placed names st -> getRIndex names s <> -1 ->
  exists tgt, index (s_cs st) (getRIndex names s) = Ret tgt
              /\ s_cs st !! Z.to_nat (getRIndex names s) = Some tgt
              /\ (Z.to_nat (getRIndex names s) < length names)%nat.
Proof.
  intros (Hn & _ & _) Hs.
  assert (Hlen : length names = length (s_cs st))
    by (rewrite <- Hn, length_map; reflexivity).
  destruct (getRIndex_bound names s) as [B|B]; [|contradiction].
  assert (B' : 0 <= getRIndex names s < Z.of_nat (length (s_cs st)))
    by lia.
  destruct (index_total _ _ B') as [tgt Ht]. exists tgt.
  split; [exact Ht|]. split; [exact (proj2 (index_lookup _ _ _ Ht))|].
  lia.
Qed.

Lemma well_placed_insert names st k tgt c :
  well_placed names st -> s_cs st !! k = Some tgt -> name c = name tgt ->
  well_placed names (mkSorter (<[k := c]> (s_cs st)) (s_sorted st)).
Proof.
  intros (Hn & Hs & Hd) Hk Hc. split; [|split; assumption].
  cbn [s_cs]. rewrite <- Hn.
  change (name <$> <[k := c]> (s_cs st) = name <$> s_cs st).
  rewrite list_fmap_insert, Hc. apply list_insert_id.
  rewrite list_lookup_fmap, Hk. reflexivity.
Qed.

Lemma well_placed_snoc names st c :
  well_placed names st -> In (name c) names ->
  getRIndex (s_sorted st) (name c) = -1 ->
  well_placed names (mkSorter (s_cs st) (s_sorted st ++ [name c])).
Proof.
  intros (Hn & Hs & Hd) Hc Hg. split; [exact Hn|]. cbn [s_sorted]. split.
  - intros n Hin. apply in_app_or in Hin as [Hin|[<-|[]]]; auto.
  - apply NoDup_snoc_new; [exact Hd | exact (getRIndex_absent _ _ Hg)].
Qed.

Lemma place_before_safe names i st :
  well_placed names st -> (i < length names)%nat ->
  safe names (place_before names i st).
Proof.
  intros Hw Hi. destruct (well_placed_lookup _ _ _ Hw Hi) as (c & Hc & Hx & Hin).
  unfold place_before. rewrite Hx. cbn [bind].
  destruct (String.eqb (before c) ""); [exact Hw|]. cbv zeta.
  destruct (getRIndex (s_sorted st) (before c) =? -1) eqn:Es; cbn [negb].
  - destruct (getRIndex names (before c) =? -1) eqn:En; cbn [negb];
      [exact Hw|].
    apply Z.eqb_neq in En.
    destruct (well_placed_target _ _ _ Hw En) as (tgt & Ht & Hl & _).
    rewrite Ht. cbn [bind safe].
    apply (well_placed_insert _ _ _ tgt); [exact Hw | exact Hl | reflexivity].
  - destruct (getRIndex (s_sorted st) (name c) =? -1) eqn:Ec.
    + apply Z.eqb_eq in Ec. destruct Hw as (Hn & Hs & Hd).
      split; [exact Hn|]. cbn [s_sorted]. split.
      * intros n H. apply In_insert_at_inv in H as [->|H]; auto.
      * apply NoDup_insert_at; [exact Hd | exact (getRIndex_absent _ _ Ec)].
    + destruct (getRIndex (s_sorted st) (name c) >?
                getRIndex (s_sorted st) (before c)); exact Hw.
Qed.

Lemma place_last_safe names i st :
  well_placed names st -> (i < length names)%nat ->
  safe names (place_last i st).
Proof.
  intros Hw Hi. destruct (well_placed_lookup _ _ _ Hw Hi) as (c & Hc & Hx & Hin).
  unfold place_last. rewrite Hx. cbn [bind].
  destruct (getRIndex (s_sorted st) (name c) =? -1) eqn:Ec; [|exact Hw].
  apply Z.eqb_eq in Ec. exact (well_placed_snoc _ _ _ Hw Hin Ec).
Qed.

Lemma place_after_safe self names i st :
  (forall j s, well_placed names s -> (j < length names)%nat ->
               safe names (self j s)) ->
  well_placed names st -> (i < length names)%nat ->
  safe names (place_after self names i st).
Proof.
  intros Hself Hw Hi.
  destruct (well_placed_lookup _ _ _ Hw Hi) as (c & Hc & Hx & Hin).
  unfold place_after. rewrite Hx. cbn [bind].
  destruct (String.eqb (after c) ""); [exact (place_last_safe _ _ _ Hw Hi)|].
  cbv zeta.
  destruct (getRIndex (s_sorted st) (after c) =? -1) eqn:Es; cbn [negb].
  - destruct (getRIndex names (after c) =? -1) eqn:En; cbn [negb];
      [exact (place_last_safe _ _ _ Hw Hi)|].
    apply Z.eqb_neq in En.
    destruct (well_placed_target _ _ _ Hw En) as (tgt & Ht & Hl & Hj).
    rewrite Ht. cbn [bind].
    set (st2 := if String.eqb (before tgt) "" then _ else _).
    assert (H2 : well_placed names st2).
    { subst st2. destruct (String.eqb (before tgt) ""); [|exact Hw].
      apply (well_placed_insert _ _ _ tgt); [exact Hw | exact Hl | reflexivity]. }
    pose proof (Hself _ _ H2 Hj) as S3.
    destruct (self (Z.to_nat (getRIndex names (after c))) st2)
      as [[st3 err3]| |]; cbn [bind safe] in *; [|contradiction | exact I].
    destruct err3 as [e3|]; [exact S3|].
    pose proof (Hself _ _ S3 Hi) as S4.
    destruct (self i st3) as [[st4 err4]| |]; cbn [bind safe] in *;
      [|contradiction | exact I].
    destruct err4 as [e4|]; [exact S4|].
    exact (place_last_safe _ _ _ S4 Hi).
  - destruct (getRIndex (s_sorted st) (name c) =? -1) eqn:Ec.
    + apply Z.eqb_eq in Ec. apply place_last_safe; [|exact Hi].
      exact (well_placed_snoc _ _ _ Hw Hin Ec).
    + destruct (getRIndex (s_sorted st) (name c) <?
                getRIndex (s_sorted st) (after c));
        [exact Hw | exact (place_last_safe _ _ _ Hw Hi)].
Qed.

Lemma sortCallback_safe (fuel : nat) names :
  forall i st,
    well_placed names st -> (i < length names)%nat ->
    safe names (sortCallback fuel names i st).
Proof.
  induction fuel as [|fuel IH]; intros i st Hw Hi; [exact I|].
  rewrite sortCallback_unfold.
  pose proof (place_before_safe _ _ _ Hw Hi) as S1.
  destruct (place_before names i st) as [[st1 err]| |]; cbn [bind safe] in *;
    [|contradiction | exact I].
  destruct err as [e|]; [exact S1|].
  apply place_after_safe; [exact IH | exact S1 | exact Hi].
Qed.

Lemma sort_all_safe (fuel : nat) names todo :
  Forall (fun i => (i < length names)%nat) todo ->
  forall st, well_placed names st -> safe names (sort_all fuel names todo st).
Proof.
  induction 1 as [|i todo Hi _ IH]; intros st Hw; cbn [sort_all];
    [exact Hw|].
  pose proof (sortCallback_safe fuel names i st Hw Hi) as S1.
  destruct (sortCallback fuel names i st) as [[st1 err]| |];
    cbn [bind safe] in *; [|contradiction | exact I].
  destruct err as [e|]; [exact S1 | exact (IH _ S1)].
Qed.

Lemma collect_safe cs names sorted :
  map name cs = names -> (forall n, In n sorted -> In n names) ->
  forall acc, exists out, collect cs names sorted acc = Ret out.
Proof.
  intros Hn Hs acc. subst names. apply collect_total.
  apply Forall_forall. intros n Hin. apply Hs, list_elem_of_In, Hin.
Qed.

(** The resolver, in the three forms of its outcome. *)
Lemma sortCallbacks_cases (fuel : nat) (cs : list callback) :
  sortCallbacks fuel cs = OutOfFuel
  \/ exists r,
       sortCallbacks fuel cs = Ret r
       /\ map name (r_cs r) = map name cs
       /\ (r_err r = None ->
           exists sorted,
             NoDup sorted
             /\ (forall n, In n sorted -> In n (map name cs))
             /\ r_fns r = omap (live (map name cs) (r_cs r)) sorted).
Proof.
  unfold sortCallbacks.
  destruct (scan_names_total cs cs [] []) as [[names warns] Hn];
    [cbn [length]; lia|].
  rewrite Hn. cbn [bind].
  pose proof (scan_names_names _ _ _ _ _ _ Hn) as ->. cbn [app].
  assert (Hw : well_placed (map name cs) (mkSorter cs []))
    by (split; [reflexivity|]; split; [intros n []| constructor]).
  assert (Htodo : Forall (fun i => (i < length (map name cs))%nat)
                    (seq 0 (length cs)))
    by (apply Forall_seq; intros j Hj; rewrite length_map; lia).
  pose proof (sort_all_safe fuel _ _ Htodo _ Hw) as S.
  destruct (sort_all fuel (map name cs) (seq 0 (length cs)) (mkSorter cs []))
    as [[st err]| |]; cbn [bind safe] in *; [|contradiction | left; reflexivity].
  right. destruct S as (Hnm & Hs & Hd). destruct err as [e|].
  - eexists. split; [reflexivity|]. cbn [r_cs r_err].
    split; [exact Hnm | discriminate].
  - destruct (collect_safe (s_cs st) _ (s_sorted st) Hnm Hs []) as [out Hout].
    rewrite Hout. cbn [bind]. eexists. split; [reflexivity|].
    cbn [r_cs r_err r_fns]. split; [exact Hnm|]. intros _.
    exists (s_sorted st). split; [exact Hd|]. split; [exact Hs|].
    apply collect_live in Hout. exact Hout.
Qed.

(** X5: the resolver never indexes out of range: for every list of
    declarations and every bound on the recursion depth, [sortCallbacks]
    returns or exceeds the bound; every [cs[idx]] of its loops and of its
    closure is within the slice. *)
Theorem sortCallbacks_index_safe (fuel : nat) (cs : list callback) :
  sortCallbacks fuel cs <> Panic.
Proof.
  destruct (sortCallbacks_cases fuel cs) as [->|(r & -> & _)]; discriminate.
Qed.

(** ** What a successful compile holds *)

(** X6: after a compile without error, the compiled list is read off a
    sequence that holds every declared name exactly once: each name gives
    the handler of its last declaration, or nothing when that one is a
    tombstone. *)
Theorem compile_one_handler_per_name (fuel : nat) (p p' : processor)
    (lg lg' : list logentry) :
  compile fuel p lg = Ret (p', lg', None) ->
  exists sorted,
    NoDup sorted
    /\ (forall n, In n sorted <-> In n (map name (callbacks p)))
    /\ fns p' = omap (live (map name (callbacks p)) (callbacks p)) sorted.
Proof.
  intros H. apply compile_inv in H as (r & Hs & -> & He & _).
  symmetry in He. cbn [fns].
  pose proof (sortCallbacks_frame _ _ _ Hs) as Hf. revert Hs.
  set (cs := callbacks p). unfold sortCallbacks.
  destruct (scan_names cs cs [] []) as [[names warns]| |] eqn:En;
    cbn [bind]; try discriminate.
  apply scan_names_names in En. cbn [app] in En. subst names.
  assert (Hw : well_placed (map name cs) (mkSorter cs []))
    by (split; [reflexivity|]; split; [intros n []| constructor]).
  assert (Htodo : Forall (fun i => (i < length (map name cs))%nat)
                    (seq 0 (length cs)))
    by (apply Forall_seq; intros j Hj; rewrite length_map; lia).
  pose proof (sort_all_safe fuel _ _ Htodo _ Hw) as S.
  destruct (sort_all fuel (map name cs) (seq 0 (length cs)) (mkSorter cs []))
    as [[st err]| |] eqn:E; cbn [bind safe] in *; try discriminate.
  destruct err as [e|];
    [intros H; inversion H; subst; cbn [r_err] in He; discriminate|].
  destruct (collect (s_cs st) (map name cs) (s_sorted st) []) as [out| |] eqn:Ec;
    cbn [bind]; try discriminate.
  intros H. inversion H; subst; cbn [r_fns r_cs] in *.
  destruct S as (_ & Hsub & Hd).
  apply sort_all_settles in E as (_ & _ & Hp). cbn [s_cs] in Hp.
  exists (s_sorted st). split; [exact Hd|]. split.
  - intros n. split; [apply Hsub|]. intros Hin.
    apply in_map_iff in Hin as (c & <- & Hc).
    apply list_elem_of_In, list_elem_of_lookup in Hc as [i Hi].
    apply (Hp eq_refl i c); [|exact Hi].
    apply in_seq. apply lookup_lt_Some in Hi. lia.
  - apply collect_live in Ec. cbn [app] in Ec. subst out.
    apply omap_pointwise. intros n. apply live_frame. exact Hf.
Qed.

Lemma compile_one_handler_per_name_witness :
  exists sorted,
    NoDup sorted
    /\ (forall n, In n sorted <-> In n (map name (callbacks one_registered)))
    /\ fns replaced_a
       = omap (live (map name (callbacks (append_callback
                 (declaration (DoReplace new_callback "a" (Some count_row)))
                 one_registered)))
                 (callbacks (append_callback
                 (declaration (DoReplace new_callback "a" (Some count_row)))
                 one_registered))) sorted.
Proof.
  destruct (compile_one_handler_per_name 1
              (append_callback
                 (declaration (DoReplace new_callback "a" (Some count_row)))
                 one_registered)
              replaced_a [InfoReplacing "a"] [InfoReplacing "a"])
    as (sorted & Hd & Hin & Hf).
  - vm_compute. reflexivity.
  - exists sorted. split; [exact Hd|]. split; [|exact Hf].
    intros n. rewrite Hin. cbn. tauto.
Defined.

(** ** The duplicate warnings *)

(** The first loop reads only the declarations it has passed. *)
Lemma scan_names_store cs extra rest :
  forall names warns,
    (length names + length rest <= length cs)%nat ->
    scan_names (cs ++ extra) rest names warns = scan_names cs rest names warns.
Proof.
  induction rest as [|c rest IH]; intros names warns Hlen; [reflexivity|].
  cbn [scan_names length] in *. cbv zeta.
  assert (Hidx : index (cs ++ extra) (getRIndex names (name c))
                 = index cs (getRIndex names (name c))).
  { destruct (getRIndex_bound names (name c)) as [B|B].
    - apply index_app_l. lia.
    - rewrite B. reflexivity. }
  rewrite Hidx.
  match goal with
  | |- bind ?m _ = _ => destruct m as [w| |]
  end; cbn [bind]; [|reflexivity|reflexivity].
  apply IH. rewrite length_app. cbn [length]. lia.
Qed.

Lemma scan_names_step cs c names warns :
  (length names < length cs)%nat ->
  scan_names cs [c] names warns
  = Ret (names ++ [name c],
         warns ++ match index cs (getRIndex names (name c)) with
                  | Ret prev =>
                      if negb (replace c) && negb (remove c)
                         && negb (remove prev)
                      then [WarnDuplicated (name c)] else []
                  | _ => []
                  end).
Proof.
  intros Hlen. cbn [scan_names]. cbv zeta.
  destruct (getRIndex names (name c) >? -1) eqn:E.
  - apply Z.gtb_lt in E.
    destruct (getRIndex_bound names (name c)) as [B|B]; [|lia].
    destruct (index_total cs (getRIndex names (name c))) as [prev Hp];
      [lia|].
    rewrite Hp.
    destruct (negb (replace c) && negb (remove c)); cbn [bind andb];
      [|rewrite app_nil_r; reflexivity].
    destruct (negb (remove prev)); [reflexivity|].
    rewrite app_nil_r. reflexivity.
  - assert (Hm : getRIndex names (name c) = -1).
    { destruct (getRIndex_bound names (name c)) as [B|B]; [|exact B].
      destruct (Z.eq_dec (getRIndex names (name c)) (-1)) as [Hm|Hm];
        [exact Hm|].
      assert (Hgt : (getRIndex names (name c) >? -1) = true)
        by (apply Z.gtb_lt; lia).
      congruence. }
    rewrite Hm. cbn [bind index Z.ltb Z.compare]. rewrite app_nil_r.
    reflexivity.
Qed.

(** X7: every compile issues the duplicate warnings anew. When a
    declaration [c] is appended, the warnings of the resolver are those it
    gave for the declarations before, followed by one for [c] exactly when
    [c] is neither a replacement nor a tombstone and the last earlier
    declaration of its name exists and is not a tombstone. *)
Theorem sortCallbacks_warns_snoc (fuel fuel' : nat) (cs : list callback)
    (c : callback) (r r' : sorted_result) :
  sortCallbacks fuel cs = Ret r ->
  sortCallbacks fuel' (cs ++ [c]) = Ret r' ->
  r_warns r' = r_warns r ++
               (if duplicates cs c then [WarnDuplicated (name c)] else []).
Proof.
  intros H H'.
  apply sortCallbacks_warns in H as [names Hn].
  apply sortCallbacks_warns in H' as [names' Hn'].
  rewrite scan_names_snoc in Hn'.
  rewrite scan_names_store in Hn' by (cbn [length]; lia).
  rewrite Hn in Hn'. cbn [bind] in Hn'.
  pose proof (scan_names_names _ _ _ _ _ _ Hn) as ->. cbn [app] in Hn'.
  rewrite scan_names_step in Hn'
    by (rewrite length_map, length_app; cbn [length]; lia).
  injection Hn' as _ Hw. rewrite <- Hw. f_equal. unfold duplicates.
  destruct (getRIndex_bound (map name cs) (name c)) as [B|B].
  - rewrite length_map in B. rewrite index_app_l by lia.
    destruct (index cs (getRIndex (map name cs) (name c))); reflexivity.
  - rewrite B. reflexivity.
Qed.

Lemma sortCallbacks_warns_snoc_witness :
  r_warns (mkSorted (callbacks one_registered ++ [decl "a" "" "" (Some count_row)])
             [WarnDuplicated "a"] [Some count_row] None)
  = [] ++ [WarnDuplicated "a"].
Proof.
  apply (sortCallbacks_warns_snoc 1 1 (callbacks one_registered)
           (decl "a" "" "" (Some count_row))
           (mkSorted (callbacks one_registered) [] [Some noop] None));
    vm_compute; reflexivity.
Defined.

(** ** The order of the compiled list *)

Lemma getRIndex_not_in (l : list string) (s : string) :
  ~ In s l -> getRIndex l s = -1.
Proof. apply getRIndex_none_iff. Qed.

Lemma getRIndex_NoDup (l : list string) (s : string) (i : nat) :
  NoDup l -> l !! i = Some s -> getRIndex l s = Z.of_nat i.
Proof.
  intros Hd Hi.
  assert (Hin : In s l)
    by (apply list_elem_of_In; exact (list_elem_of_lookup_2 _ _ _ Hi)).
  pose proof (getRIndex_found l s Hin) as Hb.
  destruct (getRIndex_last l s (Z.to_nat (getRIndex l s)))
    as [Hg _]; [rewrite Z2Nat.id; lia|].
  pose proof (NoDup_lookup l _ _ s Hd Hg Hi) as E. lia.
Qed.

Lemma sort_all_app (fuel : nat) names t1 t2 :
  forall st,
    sort_all fuel names (t1 ++ t2) st
    = (do '(st', err) <~ sort_all fuel names t1 st ;
       match err with
       | Some e => Ret (st', Some e)
       | None => sort_all fuel names t2 st'
       end).
Proof.
  induction t1 as [|i t1 IH]; intros st; [reflexivity|].
  cbn [app sort_all].
  destruct (sortCallback fuel names i st) as [[st1 [e|]]| |]; cbn [bind];
    try reflexivity.
  apply IH.
Qed.

(** A declaration that points back and has a new name is put at the end
    of [sorted]. *)
Lemma sortCallback_points_back (fuel : nat) names i st c :
  s_cs st !! i = Some c -> points_back names (s_sorted st) c ->
  (forall n, In n (s_sorted st) -> In n names) ->
  ~ In (name c) (s_sorted st) ->
  sortCallback (S fuel) names i st
  = Ret (mkSorter (s_cs st) (s_sorted st ++ [name c]), None).
Proof.
  intros Hi [Hb Ha] Hsub Hnew.
  assert (Hout : forall x, ~ In x names ->
            getRIndex (s_sorted st) x = -1 /\ getRIndex names x = -1).
  { intros x Hx. split; apply getRIndex_not_in; [|exact Hx].
    intros H. apply Hx, Hsub, H. }
  assert (Hlast : place_last i st
                  = Ret (mkSorter (s_cs st) (s_sorted st ++ [name c]), None)).
  { unfold place_last. rewrite (index_of_nat _ _ _ Hi). cbn [bind].
    rewrite (getRIndex_not_in _ _ Hnew). reflexivity. }
  assert (Hbefore : place_before names i st = Ret (st, None)).
  { unfold place_before. rewrite (index_of_nat _ _ _ Hi). cbn [bind].
    destruct (String.eqb (before c) "") eqn:E; [reflexivity|].
    destruct Hb as [Hb|Hb]; [rewrite Hb in E; discriminate|].
    destruct (Hout _ Hb) as [-> ->]. reflexivity. }
  rewrite sortCallback_unfold, Hbefore. cbn [bind].
  unfold place_after. rewrite (index_of_nat _ _ _ Hi). cbn [bind].
  destruct (String.eqb (after c) "") eqn:E; [exact Hlast|].
  destruct Ha as [Ha|[Ha|Ha]]; [rewrite Ha in E; discriminate| |].
  - destruct (Hout _ Ha) as [-> ->]. exact Hlast.
  - cbv zeta. pose proof (getRIndex_found _ _ Ha) as Hf.
    destruct (getRIndex (s_sorted st) (after c) =? -1) eqn:Es;
      [apply Z.eqb_eq in Es; lia|]. cbn [negb].
    rewrite (getRIndex_not_in _ _ Hnew). cbn [Z.eqb].
    unfold place_last. cbn [s_cs s_sorted].
    rewrite (index_of_nat _ _ _ Hi). cbn [bind].
    assert (Hin : In (name c) (s_sorted st ++ [name c]))
      by (apply in_or_app; right; left; reflexivity).
    pose proof (getRIndex_found _ _ Hin) as Hf'.
    destruct (getRIndex (s_sorted st ++ [name c]) (name c) =? -1) eqn:Ec;
      [apply Z.eqb_eq in Ec; lia | reflexivity].
Qed.

Lemma sort_all_backward (fuel : nat) names store post :
  forall pre,
    backward names pre post ->
    NoDup (map name (pre ++ post)) ->
    (forall n, In n (map name (pre ++ post)) -> In n names) ->
    (forall j c, post !! j = Some c -> store !! (length pre + j)%nat = Some c) ->
    sort_all (S fuel) names (seq (length pre) (length post))
      (mkSorter store (map name pre))
    = Ret (mkSorter store (map name (pre ++ post)), None).
Proof.
  induction post as [|c post IH]; intros pre Hin Hd Hsub Hst.
  - rewrite app_nil_r. reflexivity.
  - destruct Hin as [Hc Hin]. cbn [length seq sort_all].
    assert (Hi : store !! length pre = Some c)
      by (rewrite <- (Nat.add_0_r (length pre)); apply Hst; reflexivity).
    assert (Hsub' : forall n, In n (map name pre) -> In n names)
      by (intros n H; apply Hsub; rewrite map_app; apply in_or_app; left;
          exact H).
    assert (Hnew : ~ In (name c) (map name pre)).
    { rewrite map_app in Hd. cbn [map] in Hd.
      apply NoDup_app in Hd as (_ & Hd & _). intros H.
      apply (Hd (name c)); [apply list_elem_of_In, H | left]. }
    rewrite (sortCallback_points_back fuel names (length pre)
               (mkSorter store (map name pre)) c Hi Hc Hsub' Hnew).
    cbn [bind s_cs s_sorted].
    replace (map name pre ++ [name c]) with (map name (pre ++ [c]))
      by (rewrite map_app; reflexivity).
    replace (S (length pre)) with (length (pre ++ [c]))
      by (rewrite length_app; cbn [length]; lia).
    replace (pre ++ c :: post) with ((pre ++ [c]) ++ post)
      by (rewrite <- app_assoc; reflexivity).
    apply IH.
    + exact Hin.
    + rewrite <- app_assoc. exact Hd.
    + intros n H. apply Hsub. rewrite <- app_assoc in H. exact H.
    + intros j d Hj. rewrite length_app. cbn [length].
      replace (length pre + 1 + j)%nat with (length pre + S j)%nat by lia.
      apply Hst. exact Hj.
Qed.

Lemma live_NoDup (cs : list callback) (d : callback) (i : nat) :
  NoDup (map name cs) -> cs !! i = Some d ->
  live (map name cs) cs (name d) = if remove d then None else Some (handler d).
Proof.
  intros Hd Hi. unfold live.
  rewrite (getRIndex_NoDup (map name cs) (name d) i Hd).
  - rewrite (index_of_nat _ _ _ Hi). reflexivity.
  - change (map name cs) with (name <$> cs).
    rewrite list_lookup_fmap, Hi. reflexivity.
Qed.

Lemma omap_live_names (cs l : list callback) :
  NoDup (map name cs) -> (forall d, In d l -> In d cs) ->
  omap (live (map name cs) cs) (map name l) = live_handlers l.
Proof.
  intros Hd. induction l as [|d l IH]; intros Hin; [reflexivity|].
  cbn [map]. unfold live_handlers. rewrite !omap_cons.
  fold (live_handlers l).
  assert (Hc : In d cs) by (apply Hin; left; reflexivity).
  apply list_elem_of_In, list_elem_of_lookup in Hc as [i Hi].
  rewrite (live_NoDup cs d i Hd Hi), IH
    by (intros d' H; apply Hin; right; exact H).
  reflexivity.
Qed.

Lemma collect_result (cs : list callback) (sorted : list string) :
  (forall n, In n sorted -> In n (map name cs)) ->
  collect cs (map name cs) sorted []
  = Ret (omap (live (map name cs) cs) sorted).
Proof.
  intros Hsub.
  destruct (collect_safe cs (map name cs) sorted eq_refl Hsub []) as [out Ho].
  rewrite Ho. apply collect_live in Ho. rewrite Ho. reflexivity.
Qed.

(** Distinct names give no duplicate warning. *)
Lemma scan_names_NoDup (cs rest : list callback) :
  forall pre warns,
    NoDup (map name (pre ++ rest)) ->
    scan_names cs rest (map name pre) warns
    = Ret (map name (pre ++ rest), warns).
Proof.
  induction rest as [|c rest IH]; intros pre warns Hd.
  - rewrite app_nil_r. reflexivity.
  - cbn [scan_names]. cbv zeta.
    assert (Hnew : ~ In (name c) (map name pre)).
    { rewrite map_app in Hd. cbn [map] in Hd.
      apply NoDup_app in Hd as (_ & Hd & _). intros H.
      apply (Hd (name c)); [apply list_elem_of_In, H | left]. }
    rewrite (getRIndex_not_in _ _ Hnew). cbn [Z.gtb Z.compare bind].
    replace (map name pre ++ [name c]) with (map name (pre ++ [c]))
      by (rewrite map_app; reflexivity).
    replace (pre ++ c :: rest) with ((pre ++ [c]) ++ rest)
      by (rewrite <- app_assoc; reflexivity).
    apply IH. rewrite <- app_assoc. exact Hd.
Qed.

(** X8: when the names are distinct and every declaration asks for
    nothing, or for a place after a callback declared earlier, or names
    callbacks that are not declared, the resolver returns for every
    positive bound, rewrites no declaration, warns about nothing, and the
    handlers come in the order of registration, tombstones left out. *)
Theorem sortCallbacks_keeps_registration_order (fuel : nat)
    (cs : list callback) :
  NoDup (map name cs) ->
  backward (map name cs) [] cs ->
  sortCallbacks (S fuel) cs = Ret (mkSorted cs [] (live_handlers cs) None).
Proof.
  intros Hd Hb. unfold sortCallbacks.
  pose proof (scan_names_NoDup cs cs [] [] Hd) as Hs.
  cbn [map app] in Hs. rewrite Hs. cbn [bind].
  assert (Ha : sort_all (S fuel) (map name cs) (seq 0 (length cs))
                 (mkSorter cs []) = Ret (mkSorter cs (map name cs), None)).
  { apply (sort_all_backward fuel (map name cs) cs cs [] Hb Hd);
      cbn [app length]; auto. }
  rewrite Ha. cbn [bind s_cs s_sorted].
  rewrite collect_result by auto. cbn [bind].
  rewrite omap_live_names by auto. reflexivity.
Qed.

Lemma sortCallbacks_keeps_registration_order_witness :
  sortCallbacks 1
    [ decl "validate" "" "" (Some noop);
      decl "save" "" "validate" (Some count_row);
      decl "log" "ghost" "save" None ]
  = Ret (mkSorted
           [ decl "validate" "" "" (Some noop);
             decl "save" "" "validate" (Some count_row);
             decl "log" "ghost" "save" None ]
           [] [Some noop; Some count_row; None] None).
Proof.
  apply (sortCallbacks_keeps_registration_order 0
           [ decl "validate" "" "" (Some noop);
             decl "save" "" "validate" (Some count_row);
             decl "log" "ghost" "save" None ]).
  - cbn [map name decl].
    repeat (apply NoDup_cons_2;
            [intros H; apply list_elem_of_In in H; cbn in H;
             intuition discriminate|]).
    apply NoDup_nil_2.
  - cbn. repeat split; try (left; reflexivity).
    + right. right. left. reflexivity.
    + right. intros [H|[H|[H|[]]]]; discriminate.
    + right. right. right. left. reflexivity.
Defined.

(** ** A declaration registered before a placed callback *)

Lemma lookup_insert_at_lt (l : list string) (k j : nat) (x : string) :
  (j < k)%nat -> (k <= length l)%nat ->
  (take k l ++ [x] ++ drop k l) !! j = l !! j.
Proof.
  intros Hj Hk. rewrite lookup_app_l by (rewrite length_take_le; lia).
  apply lookup_take_lt. exact Hj.
Qed.

Lemma lookup_insert_at_eq (l : list string) (k : nat) (x : string) :
  (k <= length l)%nat -> (take k l ++ [x] ++ drop k l) !! k = Some x.
Proof.
  intros Hk. apply list_lookup_middle. rewrite length_take_le; lia.
Qed.

Lemma lookup_insert_at_gt (l : list string) (k j : nat) (x : string) :
  (k <= j)%nat -> (k <= length l)%nat ->
  (take k l ++ [x] ++ drop k l) !! S j = l !! j.
Proof.
  intros Hj Hk. rewrite lookup_app_r by (rewrite length_take_le; lia).
  rewrite length_take_le by lia. cbn [app].
  replace (S j - k)%nat with (S (j - k)) by lia. cbn [lookup list_lookup].
  change (drop k l !! (j - k)%nat = l !! j).
  rewrite lookup_drop. f_equal. lia.
Qed.

Section BeforePlaced.

Variables (names : list string) (store : list callback) (placed : list string).
Variables (i k : nat) (c : callback).

Hypothesis Hstore : store !! i = Some c.
Hypothesis Hplaced : NoDup placed.
Hypothesis Hdeclared : forall n, In n placed -> In n names.
Hypothesis Hname : In (name c) names.
Hypothesis Hnew : ~ In (name c) placed.
Hypothesis Hbefore : before c <> "".
Hypothesis Htarget : placed !! k = Some (before c).

Lemma inserted_NoDup : NoDup (insert_at k (name c) placed).
Proof. apply NoDup_insert_at; assumption. Qed.

Lemma inserted_at : insert_at k (name c) placed !! k = Some (name c).
Proof.
  apply lookup_insert_at_eq. apply lookup_lt_Some in Htarget. lia.
Qed.

Lemma place_before_inserts :
  place_before names i (mkSorter store placed)
  = Ret (mkSorter store (insert_at k (name c) placed), None).
Proof.
  unfold place_before. cbn [s_cs s_sorted].
  rewrite (index_of_nat _ _ _ Hstore). cbn [bind].
  apply String.eqb_neq in Hbefore. rewrite Hbefore. cbv zeta.
  rewrite (getRIndex_NoDup placed (before c) k Hplaced Htarget).
  replace (Z.of_nat k =? -1) with false by (symmetry; apply Z.eqb_neq; lia).
  cbn [negb]. rewrite (getRIndex_not_in _ _ Hnew). cbn [Z.eqb].
  rewrite Nat2Z.id. reflexivity.
Qed.

Lemma inserted_index : getRIndex (insert_at k (name c) placed) (name c) = Z.of_nat k.
Proof. exact (getRIndex_NoDup _ _ k inserted_NoDup inserted_at). Qed.

Lemma place_last_inserted :
  place_last i (mkSorter store (insert_at k (name c) placed))
  = Ret (mkSorter store (insert_at k (name c) placed), None).
Proof.
  unfold place_last. cbn [s_cs s_sorted].
  rewrite (index_of_nat _ _ _ Hstore). cbn [bind]. rewrite inserted_index.
  replace (Z.of_nat k =? -1) with false by (symmetry; apply Z.eqb_neq; lia).
  reflexivity.
Qed.

(** The [after] block leaves the insertion alone when [after] is empty,
    names nothing declared, or names a callback placed before the
    target. *)
Lemma place_after_inserted self :
  (after c = "" \/ ~ In (after c) names
   \/ exists j, (j < k)%nat /\ placed !! j = Some (after c)) ->
  place_after self names i (mkSorter store (insert_at k (name c) placed))
  = Ret (mkSorter store (insert_at k (name c) placed), None).
Proof.
  intros Ha. unfold place_after. cbn [s_cs s_sorted].
  rewrite (index_of_nat _ _ _ Hstore). cbn [bind].
  destruct (String.eqb (after c) "") eqn:E; [exact place_last_inserted|].
  cbv zeta. apply String.eqb_neq in E.
  destruct Ha as [Ha|[Ha|(j & Hj & Hy)]]; [contradiction| |].
  - assert (Hout : ~ In (after c) (insert_at k (name c) placed)).
    { intros H. apply In_insert_at_inv in H as [H|H].
      - apply Ha. rewrite H. exact Hname.
      - apply Ha, Hdeclared, H. }
    rewrite (getRIndex_not_in _ _ Hout), (getRIndex_not_in _ _ Ha).
    cbn [Z.eqb negb]. exact place_last_inserted.
  - assert (Hy' : insert_at k (name c) placed !! j = Some (after c)).
    { unfold insert_at. rewrite lookup_insert_at_lt; [exact Hy | exact Hj|].
      apply lookup_lt_Some in Htarget. lia. }
    rewrite (getRIndex_NoDup _ _ j inserted_NoDup Hy'), inserted_index.
    replace (Z.of_nat j =? -1) with false by (symmetry; apply Z.eqb_neq; lia).
    replace (Z.of_nat k =? -1) with false by (symmetry; apply Z.eqb_neq; lia).
    replace (Z.of_nat k <? Z.of_nat j) with false
      by (symmetry; apply Z.ltb_ge; lia).
    cbn [negb]. exact place_last_inserted.
Qed.

(** The [after] block reports a conflict when [after] names the target or
    a callback placed behind it. *)
Lemma place_after_conflict self (j : nat) :
  after c <> "" -> (k <= j)%nat -> placed !! j = Some (after c) ->
  place_after self names i (mkSorter store (insert_at k (name c) placed))
  = Ret (mkSorter store (insert_at k (name c) placed),
         Some (conflict (name c) (after c))).
Proof.
  intros E Hj Hy. unfold place_after. cbn [s_cs s_sorted].
  rewrite (index_of_nat _ _ _ Hstore). cbn [bind].
  apply String.eqb_neq in E. rewrite E. cbv zeta.
  assert (Hy' : insert_at k (name c) placed !! S j = Some (after c)).
  { unfold insert_at. rewrite lookup_insert_at_gt; [exact Hy | exact Hj|].
    apply lookup_lt_Some in Htarget. lia. }
  rewrite (getRIndex_NoDup _ _ (S j) inserted_NoDup Hy'), inserted_index.
  replace (Z.of_nat (S j) =? -1) with false
    by (symmetry; apply Z.eqb_neq; lia).
  replace (Z.of_nat k =? -1) with false by (symmetry; apply Z.eqb_neq; lia).
  replace (Z.of_nat k <? Z.of_nat (S j)) with true
    by (symmetry; apply Z.ltb_lt; lia).
  reflexivity.
Qed.

Lemma sortCallback_before_placed (fuel : nat) :
  (after c = "" \/ ~ In (after c) names
   \/ exists j, (j < k)%nat /\ placed !! j = Some (after c)) ->
  sortCallback (S fuel) names i (mkSorter store placed)
  = Ret (mkSorter store (insert_at k (name c) placed), None).
Proof.
  intros Ha. rewrite sortCallback_unfold, place_before_inserts. cbn [bind].
  apply place_after_inserted. exact Ha.
Qed.

Lemma sortCallback_before_conflict (fuel : nat) (j : nat) :
  after c <> "" -> (k <= j)%nat -> placed !! j = Some (after c) ->
  sortCallback (S fuel) names i (mkSorter store placed)
  = Ret (mkSorter store (insert_at k (name c) placed),
         Some (conflict (name c) (after c))).
Proof.
  intros E Hj Hy. rewrite sortCallback_unfold, place_before_inserts.
  cbn [bind]. apply (place_after_conflict _ j); assumption.
Qed.

End BeforePlaced.

Lemma map_insert_at {A B : Type} (f : A -> B) (k : nat) (x : A) (l : list A) :
  map f (insert_at k x l) = insert_at k (f x) (map f l).
Proof.
  unfold insert_at. rewrite !map_app. cbn [map].
  change (map f (take k l)) with (f <$> take k l).
  change (map f (drop k l)) with (f <$> drop k l).
  rewrite fmap_take, fmap_drop. reflexivity.
Qed.

Lemma In_insert_at_elem {A : Type} (k : nat) (x d : A) (l : list A) :
  In d (insert_at k x l) -> In d (l ++ [x]).
Proof.
  unfold insert_at. intros H. apply in_app_or in H as [H|H].
  - apply in_or_app. left. rewrite <- (take_drop k l).
    apply in_or_app. left. exact H.
  - apply in_app_or in H as [H|H]; apply in_or_app; [right; exact H|].
    left. rewrite <- (take_drop k l). apply in_or_app. right. exact H.
Qed.

(** What appending a declaration to settled declarations leaves to do: the
    first loop warns about nothing, and the second loop places the earlier
    declarations in their order. *)
Lemma appended_prefix (fuel : nat) (cs : list callback) (c : callback) :
  NoDup (map name (cs ++ [c])) ->
  backward (map name (cs ++ [c])) [] cs ->
  scan_names (cs ++ [c]) (cs ++ [c]) [] []
    = Ret (map name (cs ++ [c]), [])
  /\ sort_all (S fuel) (map name (cs ++ [c])) (seq 0 (length (cs ++ [c])))
       (mkSorter (cs ++ [c]) [])
     = (do '(st', err) <~
          sortCallback (S fuel) (map name (cs ++ [c])) (length cs)
            (mkSorter (cs ++ [c]) (map name cs)) ;
        match err with
        | Some e => Ret (st', Some e)
        | None => Ret (st', None)
        end)
  /\ NoDup (map name cs)
  /\ ~ In (name c) (map name cs).
Proof.
  intros Hd Hb.
  assert (Hd' : NoDup (map name cs) /\ ~ In (name c) (map name cs)).
  { rewrite map_app in Hd. cbn [map] in Hd.
    apply NoDup_app in Hd as (H1 & H2 & _). split; [exact H1|].
    intros H. apply (H2 (name c)); [apply list_elem_of_In, H | left]. }
  destruct Hd' as [Hdcs Hnew].
  split; [exact (scan_names_NoDup (cs ++ [c]) (cs ++ [c]) [] [] Hd)|].
  split; [|split; assumption].
  rewrite length_app, seq_app, sort_all_app. cbn [length seq Nat.add].
  assert (Ha : sort_all (S fuel) (map name (cs ++ [c])) (seq 0 (length cs))
                 (mkSorter (cs ++ [c]) [])
               = Ret (mkSorter (cs ++ [c]) (map name cs), None)).
  { apply (sort_all_backward fuel (map name (cs ++ [c])) (cs ++ [c]) cs []
             Hb Hdcs); cbn [app length Nat.add].
    - intros n H. rewrite map_app. apply in_or_app. left. exact H.
    - intros j d Hj. apply lookup_app_l_Some. exact Hj. }
  rewrite Ha. cbn [bind sort_all].
  destruct (sortCallback _ _ _ _) as [[st' [e|]]| |]; reflexivity.
Qed.

(** X9: let the names be distinct, and let every earlier declaration
    have a [before] that is empty or names no declared callback, the new
    one counted among the declared, and an [after] that is empty, names no
    declared callback, the new one counted, or names a callback declared
    before it. A new declaration with a non-empty [before] naming the
    earlier declaration at position [k] is then compiled at position [k],
    immediately before that callback, when its [after] is empty, names
    nothing declared, or names a callback at a position below [k]; no
    declaration is rewritten and nothing is warned about. *)
Theorem sortCallbacks_before_inserts (fuel : nat) (cs : list callback)
    (c tx : callback) (k : nat) :
  NoDup (map name (cs ++ [c])) ->
  backward (map name (cs ++ [c])) [] cs ->
  before c <> "" ->
  cs !! k = Some tx -> name tx = before c ->
  (after c = "" \/ ~ In (after c) (map name (cs ++ [c]))
   \/ exists j, (j < k)%nat /\ map name cs !! j = Some (after c)) ->
  sortCallbacks (S fuel) (cs ++ [c])
  = Ret (mkSorted (cs ++ [c]) [] (live_handlers (insert_at k c cs)) None).
Proof.
  intros Hd Hb Hbefore Hk Htx Ha.
  destruct (appended_prefix fuel cs c Hd Hb) as (Hscan & Hsort & Hdcs & Hnew).
  assert (Hstore : (cs ++ [c]) !! length cs = Some c)
    by (apply list_lookup_middle; reflexivity).
  assert (Hsub : forall n, In n (map name cs) -> In n (map name (cs ++ [c])))
    by (intros n H; rewrite map_app; apply in_or_app; left; exact H).
  assert (Hname : In (name c) (map name (cs ++ [c])))
    by (rewrite map_app; apply in_or_app; right; left; reflexivity).
  assert (Htarget : map name cs !! k = Some (before c)).
  { change (map name cs) with (name <$> cs).
    rewrite list_lookup_fmap, Hk. cbn. congruence. }
  unfold sortCallbacks. rewrite Hscan. cbn [bind]. rewrite Hsort.
  rewrite (sortCallback_before_placed (map name (cs ++ [c])) (cs ++ [c])
             (map name cs) (length cs) k c Hstore Hdcs Hsub Hname Hnew
             Hbefore Htarget fuel Ha).
  cbn [bind s_cs s_sorted].
  rewrite <- map_insert_at.
  rewrite collect_result.
  - cbn [bind]. rewrite omap_live_names; [reflexivity | exact Hd |].
    intros d H. apply (In_insert_at_elem k c d cs H).
  - intros n H. apply in_map_iff in H as (d & <- & H).
    apply in_map. apply (In_insert_at_elem k c d cs H).
Qed.

(** X10: under the same conditions on the names and on the earlier
    declarations, none of which names the new callback, a new declaration
    that asks to run before the callback at position [k] and after the
    callback at a position [j] not below [k] is refused: the resolver
    returns the conflict of the new name with its [after], and no
    handler. *)
Theorem sortCallbacks_before_after_conflict (fuel : nat)
    (cs : list callback) (c tx : callback) (k j : nat) :
  NoDup (map name (cs ++ [c])) ->
  backward (map name (cs ++ [c])) [] cs ->
  before c <> "" -> after c <> "" ->
  cs !! k = Some tx -> name tx = before c ->
  (k <= j)%nat -> map name cs !! j = Some (after c) ->
  sortCallbacks (S fuel) (cs ++ [c])
  = Ret (mkSorted (cs ++ [c]) [] [] (Some (conflict (name c) (after c)))).
Proof.
  intros Hd Hb Hbefore Hafter Hk Htx Hj Hy.
  destruct (appended_prefix fuel cs c Hd Hb) as (Hscan & Hsort & Hdcs & Hnew).
  assert (Hstore : (cs ++ [c]) !! length cs = Some c)
    by (apply list_lookup_middle; reflexivity).
  assert (Hsub : forall n, In n (map name cs) -> In n (map name (cs ++ [c])))
    by (intros n H; rewrite map_app; apply in_or_app; left; exact H).
  assert (Hname : In (name c) (map name (cs ++ [c])))
    by (rewrite map_app; apply in_or_app; right; left; reflexivity).
  assert (Htarget : map name cs !! k = Some (before c)).
  { change (map name cs) with (name <$> cs).
    rewrite list_lookup_fmap, Hk. cbn. congruence. }
  unfold sortCallbacks. rewrite Hscan. cbn [bind]. rewrite Hsort.
  rewrite (sortCallback_before_conflict (map name (cs ++ [c])) (cs ++ [c])
             (map name cs) (length cs) k c Hstore Hdcs Hnew
             Hbefore Htarget fuel j Hafter Hj Hy).
  reflexivity.
Qed.

Ltac distinct_names :=
  cbn;
  repeat (apply NoDup_cons_2;
          [intros H; apply list_elem_of_In in H; cbn in H;
           intuition discriminate|]);
  apply NoDup_nil_2.

Lemma sortCallbacks_before_inserts_witness :
  sortCallbacks 1 (two_plain ++ [before_b])
  = Ret (mkSorted (two_plain ++ [before_b]) []
           [Some noop; None; Some count_row] None).
Proof.
  apply (sortCallbacks_before_inserts 0 two_plain before_b
           (decl "b" "" "" (Some count_row)) 1).
  - distinct_names.
  - cbn. repeat split; left; reflexivity.
  - discriminate.
  - reflexivity.
  - reflexivity.
  - left. reflexivity.
Defined.

Lemma sortCallbacks_before_after_conflict_witness :
  sortCallbacks 1 (two_plain ++ [before_a_after_b])
  = Ret (mkSorted (two_plain ++ [before_a_after_b]) [] []
           (Some (conflict "n" "b"))).
Proof.
  apply (sortCallbacks_before_after_conflict 0 two_plain before_a_after_b
           (decl "a" "" "" (Some noop)) 0 1).
  - distinct_names.
  - cbn. repeat split; left; reflexivity.
  - discriminate.
  - discriminate.
  - reflexivity.
  - reflexivity.
  - lia.
  - reflexivity.
Defined.

(** ** The errors of the resolver *)

Lemma place_last_no_error i st st' e :
  place_last i st = Ret (st', e) -> e = None.
Proof. intros H. apply place_last_places in H as [H _]. exact H. Qed.

Lemma place_before_error names i st st' e :
  place_before names i st = Ret (st', Some e) ->
  exists c, s_cs st' !! i = Some c /\ e = conflict (name c) (before c).
Proof.
  unfold place_before.
  destruct (index (s_cs st) (Z.of_nat i)) as [c| |] eqn:Ei; cbn [bind];
    try discriminate.
  apply index_lookup in Ei as [_ Ei]. rewrite Nat2Z.id in Ei.
  destruct (String.eqb (before c) ""); [discriminate|]. cbv zeta.
  destruct (negb (getRIndex (s_sorted st) (before c) =? -1)).
  - destruct (getRIndex (s_sorted st) (name c) =? -1); [discriminate|].
    destruct (getRIndex (s_sorted st) (name c) >?
              getRIndex (s_sorted st) (before c)); [|discriminate].
    intros H; inversion H; subst. exists c. split; [exact Ei | reflexivity].
  - destruct (negb (getRIndex names (before c) =? -1)); [|discriminate].
    destruct (index (s_cs st) (getRIndex names (before c))); discriminate.
Qed.

Lemma place_after_error self names i st st' e :
  (forall j s s' e', self j s = Ret (s', Some e') ->
     exists c, In c (s_cs s')
               /\ (e' = conflict (name c) (before c)
                   \/ e' = conflict (name c) (after c))) ->
  place_after self names i st = Ret (st', Some e) ->
  exists c, In c (s_cs st')
            /\ (e = conflict (name c) (before c)
                \/ e = conflict (name c) (after c)).
Proof.
  intros Hself. unfold place_after.
  destruct (index (s_cs st) (Z.of_nat i)) as [c| |] eqn:Ei; cbn [bind];
    try discriminate.
  apply index_lookup in Ei as [_ Ei]. rewrite Nat2Z.id in Ei.
  assert (Hlast : forall s, place_last i s = Ret (st', Some e) -> False)
    by (intros s H; apply place_last_no_error in H; discriminate).
  destruct (String.eqb (after c) ""); [intros H; destruct (Hlast _ H)|].
  cbv zeta.
  destruct (negb (getRIndex (s_sorted st) (after c) =? -1)).
  - destruct (getRIndex (s_sorted st) (name c) =? -1);
      [intros H; destruct (Hlast _ H)|].
    destruct (getRIndex (s_sorted st) (name c) <?
              getRIndex (s_sorted st) (after c));
      [|intros H; destruct (Hlast _ H)].
    intros H; inversion H; subst. exists c. split; [|right; reflexivity].
    apply list_elem_of_In. exact (list_elem_of_lookup_2 _ _ _ Ei).
  - destruct (negb (getRIndex names (after c) =? -1));
      [|intros H; destruct (Hlast _ H)].
    destruct (index (s_cs st) (getRIndex names (after c))) as [tgt| |];
      cbn [bind]; try discriminate.
    set (st2 := if String.eqb (before tgt) "" then _ else _).
    destruct (self (Z.to_nat (getRIndex names (after c))) st2)
      as [[st3 err3]| |] eqn:E3; cbn [bind]; try discriminate.
    destruct err3 as [e3|].
    { intros H; inversion H; subst. exact (Hself _ _ _ _ E3). }
    destruct (self i st3) as [[st4 err4]| |] eqn:E4; cbn [bind];
      try discriminate.
    destruct err4 as [e4|].
    { intros H; inversion H; subst. exact (Hself _ _ _ _ E4). }
    intros H; destruct (Hlast _ H).
Qed.

Lemma sortCallback_error (fuel : nat) :
  forall names i st st' e,
    sortCallback fuel names i st = Ret (st', Some e) ->
    exists c, In c (s_cs st')
              /\ (e = conflict (name c) (before c)
                  \/ e = conflict (name c) (after c)).
Proof.
  induction fuel as [|fuel IH]; intros names i st st' e; [discriminate|].
  rewrite sortCallback_unfold.
  destruct (place_before names i st) as [[st1 err]| |] eqn:E1; cbn [bind];
    try discriminate.
  destruct err as [e1|].
  - intros H; inversion H; subst.
    apply place_before_error in E1 as (c & Hc & ->).
    exists c. split; [|left; reflexivity].
    apply list_elem_of_In. exact (list_elem_of_lookup_2 _ _ _ Hc).
  - apply place_after_error. intros j s s' e'. apply IH.
Qed.

Lemma sort_all_error (fuel : nat) names todo :
  forall st st' e,
    sort_all fuel names todo st = Ret (st', Some e) ->
    exists c, In c (s_cs st')
              /\ (e = conflict (name c) (before c)
                  \/ e = conflict (name c) (after c)).
Proof.
  induction todo as [|i todo IH]; intros st st' e; cbn [sort_all];
    [discriminate|].
  destruct (sortCallback fuel names i st) as [[st1 err]| |] eqn:E1;
    cbn [bind]; try discriminate.
  destruct err as [e1|].
  - intros H; inversion H; subst. exact (sortCallback_error _ _ _ _ _ _ E1).
  - apply IH.
Qed.

(** X11: the only error a registration, removal or replacement returns is
    a conflict that names one of the declarations the processor keeps,
    together with the [before] or the [after] that declaration then has;
    the compiled list is then empty. *)
Theorem mutate_error_is_conflict (fuel : nat) (m : mutation)
    (p p' : processor) (lg lg' : list logentry) (e : error) :
  mutate fuel m p lg = Ret (p', lg', Some e) ->
  fns p' = []
  /\ exists c, In c (callbacks p')
               /\ (e = conflict (name c) (before c)
                   \/ e = conflict (name c) (after c)).
Proof.
  intros H.
  assert (Hc : exists q lg0, compile fuel q lg0 = Ret (p', lg', Some e))
    by (destruct m; eexists _, _; exact H).
  destruct Hc as (q & lg0 & Hc).
  split; [exact (proj1 (compile_error_fns _ _ _ _ _ _ Hc))|].
  apply compile_inv in Hc as (r & Hs & -> & He & _). cbn [callbacks].
  revert Hs. unfold sortCallbacks.
  destruct (scan_names (callbacks q) (callbacks q) [] [])
    as [[names warns]| |]; cbn [bind]; try discriminate.
  destruct (sort_all fuel names (seq 0 (length (callbacks q)))
              (mkSorter (callbacks q) [])) as [[st err]| |] eqn:E;
    cbn [bind]; try discriminate.
  destruct err as [e0|].
  - intros Hr; inversion Hr; subst; cbn [r_err r_cs] in *.
    inversion He; subst. exact (sort_all_error _ _ _ _ _ _ E).
  - destruct (collect (s_cs st) names (s_sorted st) []); cbn [bind];
      try discriminate.
    intros Hr; inversion Hr; subst; cbn [r_err] in He. discriminate.
Qed.

Lemma mutate_error_is_conflict_witness :
  exists p' lg' c,
    mutate 1 (DoRegister around_a "b" (Some noop)) one_registered []
      = Ret (p', lg', Some (conflict "b" "a"))
    /\ In c (callbacks p')
    /\ (conflict "b" "a" = conflict (name c) (before c)
        \/ conflict "b" "a" = conflict (name c) (after c)).
Proof.
  destruct (mutate_error_is_conflict 1
              (DoRegister around_a "b" (Some noop)) one_registered
              (mkProcessor empty_db []
                 [decl "a" "" "" (Some noop);
                  mkCallback "b" "a" "a" false false None (Some noop)])
              [] [ErrorCompile (conflict "b" "a")] (conflict "b" "a"))
    as (_ & c & Hc & He).
  - vm_compute. reflexivity.
  - eexists _, _, c. split; [vm_compute; reflexivity|].
    split; [exact Hc | exact He].
Defined.
